(** * Shard placement and contract negotiation: [UploadShard]

    A shallow embedding of
    [core/commands/storage/upload/upload/upload_shard.go] (go-btfs).

    [UploadShard] runs a payment preflight, then starts one negotiator
    goroutine per shard and one completion watcher, and returns.  The
    embedding keeps that shape:

    - the preflight and the launch loop are a pure function, [UploadShard],
      whose value says how the call ends and which goroutines it started;
    - a negotiator is [backoff.Retry] applied to the attempt closure; the
      closure is written in a small state monad with early [Return], one bind
      per statement of the source;
    - the watcher is its [for]/[select] loop, folded over the cases its
      [select] takes.

    What the goroutines read from outside (the session context, the host
    provider, remote calls, the scheduler's choice in a [select]) is given to
    them as a script; what they do to the outside (the contract registry,
    session error events, remote calls issued, senders left blocked) is
    recorded in [State]. *)

From stdpp Require Import base numbers option list strings gmap.

Local Open Scope string_scope.
Local Open Scope list_scope.
Local Open Scope Z_scope.

(** ** Go values *)

(** An [error] is identified with its message; a possibly-[nil] error is an
    [option error], [None] being [nil]. *)
Definition error := string.

(** [int64] and [int32] conversions and arithmetic wrap around. *)
Definition int64 (z : Z) : Z := (z + 2 ^ 63) `mod` 2 ^ 64 - 2 ^ 63.
Definition int32 (z : Z) : Z := (z + 2 ^ 31) `mod` 2 ^ 32 - 2 ^ 31.
Definition mul64 (a b : Z) : Z := int64 (a * b).

(** [time.Duration] counts nanoseconds. *)
Definition Duration := Z.
Definition Second : Duration := 1000000000.

(** [common.Address] is a 20-byte array, compared by content: a 160-bit number. *)
Definition Address := Z.
Definition bytes := list Byte.byte.

(** The part of [sessions.RenterSession] that [UploadShard] reads.  Its
    context [Ctx] is observed through the scripts below. *)
Record RenterSession := {
  SsId : string;
  Hash : string;
  ShardHashes : list string
}.

(** [ContractParams] as the signing goroutine fills it (lines 100-112). *)
Record ContractParams := {
  ContractId : string;
  RenterPid : string;
  HostPid : string;
  ShardIndex : Z;
  ShardHash : string;
  ShardSize : Z;
  FileHash : string;
  StartTime : Z;
  StorageLength : Z;
  Price : Z;
  TotalPay_ : Z
}.

(** ** Channels

    A channel made by [make(chan error, n)] has capacity [n];
    [make(chan error)] has capacity 0. *)
Record Chan := { chan_id : nat; chan_cap : nat }.

(** A send completes at once when a receiver is waiting or the buffer has
    room, and blocks otherwise. *)
Definition send_blocks (ch : Chan) (receiver_waiting : bool) (queued : nat) : bool :=
  negb receiver_waiting && (chan_cap ch <=? queued)%nat.

(** ** The world the goroutines act on *)

Record P2PRequest := {
  req_budget : Duration;
  req_host : string;
  req_route : string
}.

Record State := {
  ShardErrChanMap : gmap string Chan;   (* the process-wide contract registry *)
  error_events : list error;            (* rss.To(RssToErrorEvent, e), in order *)
  p2p_calls : list P2PRequest;          (* remote.P2PCall requests issued *)
  host_draws : nat;                     (* calls of hp.NextValidHost *)
  signed : list ContractParams;         (* RenterSignGuardContract calls *)
  tickers : list Duration;              (* time.Tick channels created *)
  stuck_senders : list Chan;            (* goroutines blocked for ever in a send *)
  chans_made : nat;                     (* make(chan error ...) evaluated *)
  attempts : nat;                       (* runs of the retried closure *)
  submits : list (Z * bool)             (* Submit(rss, fileSize, offlineSigning) calls *)
}.

Definition initial : State :=
  {| ShardErrChanMap := ∅; error_events := []; p2p_calls := []; host_draws := 0;
     signed := []; tickers := []; stuck_senders := []; chans_made := 0;
     attempts := 0; submits := [] |}.

Definition on_registry (f : gmap string Chan → gmap string Chan) (st : State) : State :=
  {| ShardErrChanMap := f (ShardErrChanMap st); error_events := error_events st;
     p2p_calls := p2p_calls st; host_draws := host_draws st; signed := signed st;
     tickers := tickers st; stuck_senders := stuck_senders st;
     chans_made := chans_made st; attempts := attempts st; submits := submits st |}.

Definition on_error_events (f : list error → list error) (st : State) : State :=
  {| ShardErrChanMap := ShardErrChanMap st; error_events := f (error_events st);
     p2p_calls := p2p_calls st; host_draws := host_draws st; signed := signed st;
     tickers := tickers st; stuck_senders := stuck_senders st;
     chans_made := chans_made st; attempts := attempts st; submits := submits st |}.

Definition on_p2p_calls (f : list P2PRequest → list P2PRequest) (st : State) : State :=
  {| ShardErrChanMap := ShardErrChanMap st; error_events := error_events st;
     p2p_calls := f (p2p_calls st); host_draws := host_draws st; signed := signed st;
     tickers := tickers st; stuck_senders := stuck_senders st;
     chans_made := chans_made st; attempts := attempts st; submits := submits st |}.

Definition on_host_draws (f : nat → nat) (st : State) : State :=
  {| ShardErrChanMap := ShardErrChanMap st; error_events := error_events st;
     p2p_calls := p2p_calls st; host_draws := f (host_draws st); signed := signed st;
     tickers := tickers st; stuck_senders := stuck_senders st;
     chans_made := chans_made st; attempts := attempts st; submits := submits st |}.

Definition on_signed (f : list ContractParams → list ContractParams) (st : State) : State :=
  {| ShardErrChanMap := ShardErrChanMap st; error_events := error_events st;
     p2p_calls := p2p_calls st; host_draws := host_draws st; signed := f (signed st);
     tickers := tickers st; stuck_senders := stuck_senders st;
     chans_made := chans_made st; attempts := attempts st; submits := submits st |}.

Definition on_tickers (f : list Duration → list Duration) (st : State) : State :=
  {| ShardErrChanMap := ShardErrChanMap st; error_events := error_events st;
     p2p_calls := p2p_calls st; host_draws := host_draws st; signed := signed st;
     tickers := f (tickers st); stuck_senders := stuck_senders st;
     chans_made := chans_made st; attempts := attempts st; submits := submits st |}.

Definition on_stuck_senders (f : list Chan → list Chan) (st : State) : State :=
  {| ShardErrChanMap := ShardErrChanMap st; error_events := error_events st;
     p2p_calls := p2p_calls st; host_draws := host_draws st; signed := signed st;
     tickers := tickers st; stuck_senders := f (stuck_senders st);
     chans_made := chans_made st; attempts := attempts st; submits := submits st |}.

Definition on_chans_made (f : nat → nat) (st : State) : State :=
  {| ShardErrChanMap := ShardErrChanMap st; error_events := error_events st;
     p2p_calls := p2p_calls st; host_draws := host_draws st; signed := signed st;
     tickers := tickers st; stuck_senders := stuck_senders st;
     chans_made := f (chans_made st); attempts := attempts st; submits := submits st |}.

Definition on_attempts (f : nat → nat) (st : State) : State :=
  {| ShardErrChanMap := ShardErrChanMap st; error_events := error_events st;
     p2p_calls := p2p_calls st; host_draws := host_draws st; signed := signed st;
     tickers := tickers st; stuck_senders := stuck_senders st;
     chans_made := chans_made st; attempts := f (attempts st); submits := submits st |}.

Definition on_submits (f : list (Z * bool) → list (Z * bool)) (st : State) : State :=
  {| ShardErrChanMap := ShardErrChanMap st; error_events := error_events st;
     p2p_calls := p2p_calls st; host_draws := host_draws st; signed := signed st;
     tickers := tickers st; stuck_senders := stuck_senders st;
     chans_made := chans_made st; attempts := attempts st; submits := f (submits st) |}.

(** ** A state monad with early return

    A statement either falls through to the next one with a value ([Next]) or
    leaves the enclosing function with its result ([Return]). *)
Inductive flow (A : Type) :=
| Next (a : A)
| Return (r : option error).
Arguments Next {A} a.
Arguments Return {A} r.

Definition M (A : Type) : Type := State → flow A * State.

#[global] Instance M_ret : MRet M := λ A a st, (Next a, st).
#[global] Instance M_bind : MBind M := λ A B k m st,
  match m st with
  | (Next a, st') => k a st'
  | (Return r, st') => (Return r, st')
  end.

Definition return_ {A} (r : option error) : M A := λ st, (Return r, st).
Definition effect (f : State → State) : M () := λ st, (Next (), f st).

(** A function body always ends in a [return]: running it yields the result. *)
Definition call (body : M Empty_set) (st : State) : option error * State :=
  match body st with
  | (Return r, st') => (r, st')
  | (Next a, _) => match a with end
  end.

(** ** Collaborators

    Functions of other packages that [UploadShard] calls and whose result
    depends on their arguments only.  None of them is in this file's package;
    each is taken as given, with the type its call site shows. *)
Record Collaborators := {
  (* chain.SettleObject.OracleService.CurrentRate(token) *)
  CurrentRate : Address → error + Z;
  (* helper.TotalPay(shardSize, price, storageLength, rate), an int64 *)
  TotalPay : Z → Z → Z → Z → error + Z;
  (* checkAvailableBalance(rss.Ctx, expectTotalPay, token) *)
  checkAvailableBalance : Z → Address → option error;
  (* peer.Decode(host) *)
  peer_Decode : string → error + string;
  (* json.Unmarshal(output, &mpToken) *)
  json_Unmarshal : bytes → error + gmap string Address;
  (* helper.NewContractID(rss.SsId): the session id it is called with, and the
     value its generator draws at this call *)
  NewContractID : string → string → string;
  (* renterId.String() *)
  peer_String : string → string;
  (* helper.HandleShardBo.MaxElapsedTime and its String() *)
  MaxElapsedTime : Duration;
  Duration_String : Duration → string
}.

(** ** One attempt: the closure given to [backoff.Retry] (lines 42-159) *)

(** Which case the final [select] takes, and what the push goroutine does
    around it.  [cb] has two possible senders: the handler of the host's
    acknowledgement, which finds [cb] in the registry, and the push goroutine,
    which sends the error of a failed push. *)
Inductive wait_outcome :=
| AckFirst (v : option error) (push : option error)
    (* [v] arrives from the registry side and is received; the push goroutine
       ends with [push], after the receive when that is an error *)
| PushErrFirst (e : error)
    (* the push fails with [e], which is received *)
| TickFirst (push : option error).
    (* nothing arrives within the tick; the push goroutine ends with [push]
       afterwards *)

(** What the outside answers during one attempt. *)
Record AttemptEnv := {
  ctx_done : bool;                    (* is rss.Ctx.Done() closed at line 44 *)
  NextValidHost : error + string;     (* hp.NextValidHost() *)
  supporttokens : error + bytes;      (* the supporttokens call *)
  uuid : string;                      (* the draw of NewContractID's generator *)
  now : Z;                            (* time.Now() *)
  sign : error + bytes;               (* RenterSignGuardContract *)
  wait : wait_outcome
}.

(** [for _, v := range mpToken { if token == v { ok = true } }] *)
Definition includes_token (token : Address) (mpToken : gmap string Address) : bool :=
  map_fold (λ _ v ok, if bool_decide (token = v) then true else ok) false mpToken.

Definition begin_attempt : M () := effect (on_attempts S).

(** [rss.To(sessions.RssToErrorEvent, e)]; both call sites drop its result. *)
Definition To_RssToErrorEvent (e : error) : M () :=
  effect (on_error_events (λ l, l ++ [e])).

Definition hp_NextValidHost (answer : error + string) : M (error + string) :=
  λ st, (Next answer, on_host_draws S st).

Definition P2PCall {A} (budget : Duration) (hostPid route : string) (answer : A) : M A :=
  λ st, (Next answer,
         on_p2p_calls (λ l, l ++ [{| req_budget := budget; req_host := hostPid;
                                     req_route := route |}]) st).

Definition make_chan (cap : nat) : M Chan :=
  λ st, (Next {| chan_id := chans_made st; chan_cap := cap |}, on_chans_made S st).

Definition ShardErrChanMap_Set (contractId : string) (ch : Chan) : M () :=
  effect (on_registry (λ m, <[contractId := ch]> m)).

Definition ShardErrChanMap_Remove (contractId : string) : M () :=
  effect (on_registry (λ m, delete contractId m)).

(** [RenterSignGuardContract(rss, &ContractParams{...}, offlineSigning, rp, token.String())];
    the contract parameters are what the log keeps of the call. *)
Definition RenterSignGuardContract (p : ContractParams) (answer : error + bytes)
  : M (error + bytes) :=
  λ st, (Next answer, on_signed (λ l, l ++ [p]) st).

Definition time_Tick (d : Duration) : M () := effect (on_tickers (λ l, l ++ [d])).

(** [if err != nil { cb <- err }] in the push goroutine, run once the
    enclosing attempt has left its [select]: nobody receives from [cb] any
    more and nothing is queued in it. *)
Definition push_after_return (cb : Chan) (push : option error) : M () :=
  match push with
  | Some _ =>
      if send_blocks cb false 0
      then effect (on_stuck_senders (λ l, l ++ [cb]))
      else mret ()
  | None => mret ()
  end.

Section Negotiation.
Context (W : Collaborators).
Context (rss : RenterSession) (price : Z) (token : Address)
        (shardSize storageLength : Z) (offlineSigning : bool) (renterId : string).
(* [expectOnePay] is the preflight's per-shard pay, captured by the closure *)
Context (expectOnePay : Z).

Definition attempt (i : Z) (h : string) (env : AttemptEnv) : M Empty_set :=
  begin_attempt;;
  (* select { case <-rss.Ctx.Done(): return nil; default: } *)
  (if ctx_done env then return_ None else mret ());;
  r ← hp_NextValidHost (NextValidHost env);
  host ← match r with
         | inl err => To_RssToErrorEvent err;; return_ None
         | inr host => mret host
         end;
  hostPid ← match peer_Decode W host with
            | inl err => return_ (Some err)
            | inr pid => mret pid
            end;
  (* token: check host tokens *)
  out ← P2PCall (60 * Second) hostPid "/storage/upload/supporttokens"
                (supporttokens env);
  output ← match out with
           | inl err => return_ (Some err)
           | inr output => mret output
           end;
  mpToken ← match json_Unmarshal W output with
            | inl err => return_ (Some err)
            | inr mp => mret mp
            end;
  (if negb (includes_token token mpToken) then return_ None else mret ());;
  (* TotalPay *)
  let contractId := NewContractID W (SsId rss) (uuid env) in
  cb ← make_chan 0;
  ShardErrChanMap_Set contractId cb;;
  errChan ← make_chan 2;
  (* the signing goroutine sends its result on errChan; the loop over
     errChan takes that one value *)
  s ← RenterSignGuardContract
        {| ContractId := contractId;
           RenterPid := peer_String W renterId;
           HostPid := host;
           ShardIndex := int32 i;
           ShardHash := h;
           ShardSize := shardSize;
           FileHash := Hash rss;
           StartTime := now env;
           StorageLength := int64 storageLength;
           Price := price;
           TotalPay_ := expectOnePay |}
        (sign env);
  guardContractBytes ← match s with
                       | inl err => return_ (Some err)
                       | inr b => mret b
                       end;
  (* go func() { _, err := remote.P2PCall(ctx, ..., "/storage/upload/init", ...) ... }() *)
  P2PCall (10 * Second) hostPid "/storage/upload/init" ();;
  (* host needs to send recv in 30 seconds, or the contract will be invalid. *)
  time_Tick (30 * Second);;
  match wait env with
  | AckFirst v push =>
      (* case err = <-cb *)
      ShardErrChanMap_Remove contractId;;
      push_after_return cb push;;
      return_ v
  | PushErrFirst e =>
      (* case err = <-cb, the value being the push goroutine's *)
      ShardErrChanMap_Remove contractId;;
      return_ (Some e)
  | TickFirst push =>
      (* case <-tick *)
      push_after_return cb push;;
      return_ (Some "host timeout")
  end.
End Negotiation.

(** ** [backoff.Retry]

    [backoff.Retry(operation, b)] of github.com/cenkalti/backoff/v4 runs the
    operation; a [nil] result ends the loop with [nil]; after an error it asks
    [b.NextBackOff()]: on [Stop] the loop ends with that error, otherwise it
    sleeps the delay and runs the operation again.  (Its third exit, an error
    wrapped by [backoff.Permanent], cannot arise: the closure wraps none.)

    The script pairs what the outside answers during each run of the operation
    with what [NextBackOff] answers after it ([None] is [Stop]).  A script
    that ends before the loop does leaves the loop running: [None]. *)
Fixpoint Retry {E} (operation : E → State → option error * State)
    (script : list (E * option Duration)) (st : State)
  : option (option error) * State :=
  match script with
  | [] => (None, st)
  | (env, next) :: rest =>
      match operation env st with
      | (None, st') => (Some None, st')
      | (Some err, st') =>
          match next with
          | None => (Some (Some err), st')
          | Some _ => Retry operation rest st'
          end
      end
  end.

Inductive status := Running | Finished.

(** ** The completion watcher (lines 167-194) *)

(** The case one [select] of the watcher takes, with what
    [rss.GetCompleteShardsNum()] and [Submit] answer if they are called. *)
Inductive watcher_case :=
| case_tick (completeNum errorNum : Z) (err : option error) (submit : option error)
| case_done.

Definition Submit (fileSize : Z) (offlineSigning : bool) (answer : option error)
  : M (option error) :=
  λ st, (Next answer, on_submits (λ l, l ++ [(fileSize, offlineSigning)]) st).

(** One turn of [for true { select { ... } }]: [Next] goes round again
    ([continue], or the end of the [select]), [Return] leaves the goroutine. *)
Definition watcher_turn (fileSize : Z) (offlineSigning : bool) (numShards : Z)
    (c : watcher_case) : M () :=
  match c with
  | case_tick completeNum errorNum err submit =>
      match err with
      | Some _ => mret () (* continue *)
      | None =>
          if bool_decide (completeNum = numShards) then
            (* while all shards upload completely, submit its. *)
            err ← Submit fileSize offlineSigning submit;
            match err with
            | Some err => To_RssToErrorEvent err
            | None => mret ()
            end;;
            return_ None
          else if bool_decide (errorNum > 0) then
            To_RssToErrorEvent "there are some error shards";;
            return_ None
          else mret ()
      end
  | case_done => return_ None
  end.

Fixpoint watcher_loop (fileSize : Z) (offlineSigning : bool) (numShards : Z)
    (script : list watcher_case) (st : State) : status * State :=
  match script with
  | [] => (Running, st)
  | c :: rest =>
      match watcher_turn fileSize offlineSigning numShards c st with
      | (Next _, st') => watcher_loop fileSize offlineSigning numShards rest st'
      | (Return _, st') => (Finished, st')
      end
  end.

Definition watcher (fileSize : Z) (offlineSigning : bool) (numShards : Z)
    (script : list watcher_case) (st : State) : status * State :=
  watcher_loop fileSize offlineSigning numShards script
    (on_tickers (λ l, l ++ [5 * Second]) st).

(** ** [UploadShard] (lines 21-197) *)

Inductive goroutine :=
| Negotiator (expectOnePay : Z) (i : Z) (h : string)
| Watcher (numShards : Z).

(** How the call ends: it returns an error (or [nil]), or the runtime panics
    on [shardIndexes[index]] with [index] out of range. *)
Inductive exit :=
| Returns (err : option error)
| Panics (index len : nat).

Inductive preflight_call :=
| RateLookup (token : Address)
| PayComputation (shardSize price storageLength rate : Z)
| BalanceCheck (expectTotalPay : Z) (token : Address).

Record outcome := {
  exit_of : exit;
  preflight : list preflight_call;   (* the collaborators called, in order *)
  launched : list goroutine          (* the [go] statements executed, in order *)
}.

(** What a goroutine meets while it runs. *)
Inductive script :=
| NegotiatorScript (s : list (AttemptEnv * option Duration))
| WatcherScript (s : list watcher_case).

Section Session.
Context (W : Collaborators).
Context (rss : RenterSession) (price : Z) (token : Address)
        (shardSize storageLength : Z) (offlineSigning : bool) (renterId : string)
        (fileSize : Z).

(** The goroutine of lines 41-164. *)
Definition negotiator (expectOnePay i : Z) (h : string)
    (s : list (AttemptEnv * option Duration)) (st : State) : status * State :=
  match
    Retry (λ env, call (attempt W rss price token shardSize storageLength
                          renterId expectOnePay i h env)) s st
  with
  | (None, st') => (Running, st')
  | (Some None, st') => (Finished, st')
  | (Some (Some _), st') =>
      (Finished,
       on_error_events
         (λ l, l ++ ["timeout: failed to setup contract in "
                     +:+ Duration_String W (MaxElapsedTime W)]) st')
  end.

(** [for index, shardHash := range rss.ShardHashes { go func(...){...}(shardIndexes[index], shardHash) }]:
    the arguments of each [go] statement are evaluated by the loop itself. *)
Fixpoint launch_negotiators (expectOnePay : Z) (shardIndexes : list Z)
    (index : nat) (shardHashes : list string) : list goroutine * option exit :=
  match shardHashes with
  | [] => ([], None)
  | shardHash :: rest =>
      match shardIndexes !! index with
      | None => ([], Some (Panics index (length shardIndexes)))
      | Some i =>
          let '(gs, e) := launch_negotiators expectOnePay shardIndexes (S index) rest in
          (Negotiator expectOnePay i shardHash :: gs, e)
      end
  end.

Definition UploadShard (shardIndexes : list Z) : outcome :=
  (* token: get new rate *)
  match CurrentRate W token with
  | inl err =>
      {| exit_of := Returns (Some err); preflight := [RateLookup token]; launched := [] |}
  | inr rate =>
      match TotalPay W shardSize price storageLength rate with
      | inl err =>
          {| exit_of := Returns (Some err);
             preflight := [RateLookup token;
                           PayComputation shardSize price storageLength rate];
             launched := [] |}
      | inr expectOnePay =>
          let expectTotalPay :=
            mul64 expectOnePay (int64 (Z.of_nat (length (ShardHashes rss)))) in
          let calls := [RateLookup token;
                        PayComputation shardSize price storageLength rate;
                        BalanceCheck expectTotalPay token] in
          match checkAvailableBalance W expectTotalPay token with
          | Some err =>
              {| exit_of := Returns (Some err); preflight := calls; launched := [] |}
          | None =>
              match launch_negotiators expectOnePay shardIndexes 0 (ShardHashes rss) with
              | (gs, Some panic) =>
                  {| exit_of := panic; preflight := calls; launched := gs |}
              | (gs, None) =>
                  (* waiting for contracts of 30(n) shards *)
                  {| exit_of := Returns None; preflight := calls;
                     launched := gs ++ [Watcher (Z.of_nat (length (ShardHashes rss)))] |}
              end
          end
      end
  end.

(** A goroutine run against a script of its kind. *)
Definition run_goroutine (g : goroutine) (s : script) (st : State) : status * State :=
  match g, s with
  | Negotiator expectOnePay i h, NegotiatorScript s => negotiator expectOnePay i h s st
  | Watcher numShards, WatcherScript s => watcher fileSize offlineSigning numShards s st
  | _, _ => (Running, st)
  end.

Fixpoint run_goroutines (gs : list goroutine) (ss : list script) (st : State) : State :=
  match gs, ss with
  | g :: gs, s :: ss => run_goroutines gs ss (run_goroutine g s st).2
  | _, _ => st
  end.

(** A whole session: the call, then the goroutines it started, each against
    its script (one after the other: one of the schedules). *)
Definition session (shardIndexes : list Z) (ss : list script) (st : State)
  : exit * State :=
  let o := UploadShard shardIndexes in
  (exit_of o, run_goroutines (launched o) ss st).
End Session.

(** * Vocabulary of the statements *)

Section Vocabulary.
Context (W : Collaborators).
Context (rss : RenterSession) (price : Z) (token : Address)
        (shardSize storageLength : Z) (renterId : string) (expectOnePay : Z).

Local Abbreviation op i h :=
  (λ env, call (attempt W rss price token shardSize storageLength renterId
                  expectOnePay i h env)).

(** The result of an attempt, which its script alone decides. *)
Definition result_of (i : Z) (h : string) (env : AttemptEnv) : option error :=
  (op i h env initial).1.

(** An attempt after which [backoff.Retry] goes round again: it ended in an
    error and [NextBackOff] granted a delay. *)
Definition retried (i : Z) (h : string) (x : AttemptEnv * option Duration) : Prop :=
  is_Some (result_of i h x.1) ∧ is_Some x.2.

(** An attempt gets as far as the token check's answer. *)
Definition answers_tokens (env : AttemptEnv) (host pid : string)
    (mpToken : gmap string Address) : Prop :=
  ctx_done env = false ∧ NextValidHost env = inr host ∧
  peer_Decode W host = inr pid ∧
  ∃ output, supporttokens env = inr output ∧ json_Unmarshal W output = inr mpToken.
End Vocabulary.

(** What a watcher has come to. *)
Inductive verdict :=
| Pending
| Cancelled
| Finalized (failure : option error)
| Aborted.

Definition verdict_on (fileSize : Z) (offlineSigning : bool) (v : verdict)
    (st : State) : status * State :=
  match v with
  | Pending => (Running, st)
  | Cancelled => (Finished, st)
  | Finalized None =>
      (Finished, on_submits (λ l, l ++ [(fileSize, offlineSigning)]) st)
  | Finalized (Some err) =>
      (Finished, on_error_events (λ l, l ++ [err])
                   (on_submits (λ l, l ++ [(fileSize, offlineSigning)]) st))
  | Aborted =>
      (Finished, on_error_events (λ l, l ++ ["there are some error shards"]) st)
  end.

(** ** A concrete world

    Two shards, a rate of 1, pay [size * price * length * rate], a balance of
    1000, hosts that accept token 7 only. *)
Definition demo : Collaborators :=
  {| CurrentRate := λ _, inr 1;
     TotalPay := λ s p l r, inr (s * p * l * r);
     checkAvailableBalance := λ amount _,
       if bool_decide (amount ≤ 1000) then None else Some "insufficient balance";
     peer_Decode := λ host,
       if bool_decide (host = "") then inl "failed to parse peer ID" else inr host;
     json_Unmarshal := λ _, inr {[ "WBTT" := 7 ]};
     NewContractID := λ ssId drawn, ssId +:+ "," +:+ drawn;
     peer_String := λ pid, pid;
     MaxElapsedTime := 300 * Second;
     Duration_String := λ _, "5m0s" |}.

Definition demo_session : RenterSession :=
  {| SsId := "ss"; Hash := "root"; ShardHashes := ["h0"; "h1"] |}.

(** A session of four shards. *)
Definition four_shards : RenterSession :=
  {| SsId := "ss"; Hash := "root"; ShardHashes := ["h0"; "h1"; "h2"; "h3"] |}.

(** An attempt in which every stage succeeds and the host acknowledges. *)
Definition env_acked : AttemptEnv :=
  {| ctx_done := false; NextValidHost := inr "host1"; supporttokens := inr [];
     uuid := "u1"; now := 0; sign := inr []; wait := AckFirst None None |}.

(** The host does not answer within the 30 seconds. *)
Definition env_timed_out (drawn : string) : AttemptEnv :=
  {| ctx_done := false; NextValidHost := inr "host1"; supporttokens := inr [];
     uuid := drawn; now := 0; sign := inr []; wait := TickFirst None |}.

(** The push to the host fails and its error is what [select] receives. *)
Definition env_push_failed : AttemptEnv :=
  {| ctx_done := false; NextValidHost := inr "host1"; supporttokens := inr [];
     uuid := "u1"; now := 0; sign := inr []; wait := PushErrFirst "push failed" |}.

(** The host acknowledges, and the push call fails afterwards. *)
Definition env_acked_then_push_failed : AttemptEnv :=
  {| ctx_done := false; NextValidHost := inr "host1"; supporttokens := inr [];
     uuid := "u1"; now := 0; sign := inr [];
     wait := AckFirst None (Some "context deadline exceeded") |}.

(** The session context is done. *)
Definition env_cancelled : AttemptEnv :=
  {| ctx_done := true; NextValidHost := inr "host1"; supporttokens := inr [];
     uuid := "u1"; now := 0; sign := inr []; wait := AckFirst None None |}.

(** The host provider hands out an identifier that is no peer id. *)
Definition env_undecodable : AttemptEnv :=
  {| ctx_done := false; NextValidHost := inr ""; supporttokens := inr [];
     uuid := "u1"; now := 0; sign := inr []; wait := AckFirst None None |}.

(** The signer refuses. *)
Definition env_sign_failed : AttemptEnv :=
  {| ctx_done := false; NextValidHost := inr "host1"; supporttokens := inr [];
     uuid := "u1"; now := 0; sign := inl "sign failed"; wait := AckFirst None None |}.

(** The token check does not reach the host. *)
Definition env_call_failed : AttemptEnv :=
  {| ctx_done := false; NextValidHost := inr "host1";
     supporttokens := inl "context deadline exceeded";
     uuid := "u1"; now := 0; sign := inr []; wait := AckFirst None None |}.

(** ** Counters and contract contents *)

Definition supporttokens_route : string := "/storage/upload/supporttokens".
Definition init_route : string := "/storage/upload/init".

(** The requests of a log that went to one route. *)
Definition requests_to (route : string) (calls : list P2PRequest) : list P2PRequest :=
  filter (λ r, req_route r = route) calls.

(** How far the attempts made so far have got, stage by stage. *)
Record progress := {
  n_attempts : nat;       (* runs of the closure *)
  n_draws : nat;          (* hosts drawn *)
  n_token_checks : nat;   (* supporttokens requests *)
  n_signings : nat;       (* contracts given to the signer *)
  n_pushes : nat;         (* init requests *)
  n_waits : nat           (* 30-second tickers *)
}.

Definition progress_of (st : State) : progress :=
  {| n_attempts := attempts st;
     n_draws := host_draws st;
     n_token_checks := length (requests_to supporttokens_route (p2p_calls st));
     n_signings := length (signed st);
     n_pushes := length (requests_to init_route (p2p_calls st));
     n_waits := length (tickers st) |}.

(** From [a] to [b] the stages advanced as a funnel: each stage was reached
    at most as often as the one before it, and every push was waited for. *)
Definition funnel (a b : progress) : Prop :=
  ∃ da dd dt ds dp : nat,
    n_attempts b = (n_attempts a + da)%nat ∧
    n_draws b = (n_draws a + dd)%nat ∧
    n_token_checks b = (n_token_checks a + dt)%nat ∧
    n_signings b = (n_signings a + ds)%nat ∧
    n_pushes b = (n_pushes a + dp)%nat ∧
    n_waits b = (n_waits a + dp)%nat ∧
    (dp ≤ ds ≤ dt)%nat ∧ (dt ≤ dd ≤ da)%nat.

(** The contract a negotiator for shard [(i, h)] is to sign: everything but
    the id, the host and the start time is fixed by the call of
    [UploadShard]. *)
Definition contract_of (W : Collaborators) (rss : RenterSession) (price shardSize
    storageLength : Z) (renterId : string) (expectOnePay i : Z) (h : string)
    (p : ContractParams) : Prop :=
  RenterPid p = peer_String W renterId ∧ ShardIndex p = int32 i ∧
  ShardHash p = h ∧ ShardSize p = shardSize ∧ FileHash p = Hash rss ∧
  StorageLength p = int64 storageLength ∧ Price p = price ∧
  TotalPay_ p = expectOnePay.

(** The contract ids the attempts of a script can mint. *)
Definition minted (W : Collaborators) (rss : RenterSession)
    (s : list (AttemptEnv * option Duration)) : list string :=
  (λ x, NewContractID W (SsId rss) (uuid x.1)) <$> s.

(** A case of the watcher's [select] after which the loop goes round again. *)
Definition idle (numShards : Z) (c : watcher_case) : Prop :=
  match c with
  | case_tick completeNum errorNum err _ =>
      is_Some err ∨ (completeNum ≠ numShards ∧ errorNum ≤ 0)
  | case_done => False
  end.

(** * The add command: [core/commands/add.go]

    [AddCmd]'s [PreRun], [Run] and [PostRun] closures.  A request's options
    are a map from option names to values of any type; the closures read them
    with type assertions. *)

(** ** Option values *)

Inductive OptVal :=
| OBool (b : bool)
| OInt (n : Z)
| OUint (n : Z)
| OInt64 (n : Z)
| OString (s : string).

(** [v, ok := req.Options[name].(bool)] and its like: the zero value and
    [false] when the option is absent or of another type. *)
Definition as_bool (v : option OptVal) : bool * bool :=
  match v with Some (OBool b) => (b, true) | _ => (false, false) end.
Definition as_int (v : option OptVal) : Z * bool :=
  match v with Some (OInt n) => (n, true) | _ => (0, false) end.
Definition as_uint (v : option OptVal) : Z * bool :=
  match v with Some (OUint n) => (n, true) | _ => (0, false) end.
Definition as_int64 (v : option OptVal) : Z * bool :=
  match v with Some (OInt64 n) => (n, true) | _ => (0, false) end.
Definition as_string (v : option OptVal) : string * bool :=
  match v with Some (OString s) => (s, true) | _ => ("", false) end.

Definition quietOptionName : string := "quiet".
Definition quieterOptionName : string := "quieter".
Definition silentOptionName : string := "silent".
Definition progressOptionName : string := "progress".
Definition trickleOptionName : string := "trickle".
Definition wrapOptionName : string := "wrap-with-directory".
Definition onlyHashOptionName : string := "only-hash".
Definition chunkerOptionName : string := "chunker".
Definition pinOptionName : string := "pin".
Definition rawLeavesOptionName : string := "raw-leaves".
Definition noCopyOptionName : string := "nocopy".
Definition fstoreCacheOptionName : string := "fscache".
Definition hashOptionName : string := "hash".
Definition inlineOptionName : string := "inline".
Definition inlineLimitOptionName : string := "inline-limit".
Definition tokenMetaOptionName : string := "meta".
Definition encryptName : string := "encrypt".
Definition pubkeyName : string := "public-key".
Definition peerIdName : string := "peer-id".
Definition pinDurationCountOptionName : string := "pin-duration-count".
Definition uploadToBlockchainOptionName : string := "to-blockchain".
Definition preserveModeOptionName : string := "preserve-mode".
Definition preserveMtimeOptionName : string := "preserve-mtime".
Definition modeOptionName : string := "mode".
Definition mtimeOptionName : string := "mtime".

(** ** [PreRun] *)

(** The options as [PreRun] leaves them, and its result. *)
Definition Add_PreRun (Options : gmap string OptVal)
  : gmap string OptVal * option error :=
  let quiet := (as_bool (Options !! quietOptionName)).1 in
  let quieter := (as_bool (Options !! quieterOptionName)).1 in
  let quiet := quiet || quieter in
  let silent := (as_bool (Options !! silentOptionName)).1 in
  if quiet || silent then (Options, None)
  else
    (* btfs cli progress bar defaults to true unless quiet or silent is used *)
    let found := (as_bool (Options !! progressOptionName)).2 in
    if negb found
    then (<[progressOptionName := OBool true]> Options, None)
    else (Options, None).

(** ** [Run]: the options handed to [api.Unixfs().Add] *)

Inductive UnixfsAddOption :=
| Unixfs_Hash (code : Z)
| Unixfs_Inline (b : bool)
| Unixfs_InlineLimit (n : Z)
| Unixfs_Chunker (s : string)
| Unixfs_Pin (b : bool)
| Unixfs_HashOnly (b : bool)
| Unixfs_FsCache (b : bool)
| Unixfs_Nocopy (b : bool)
| Unixfs_Progress (b : bool)
| Unixfs_Silent (b : bool)
| Unixfs_TokenMetadata (s : string)
| Unixfs_PinDuration (n : Z)
| Unixfs_PreserveMode (b : bool)
| Unixfs_PreserveMtime (b : bool)
| Unixfs_CidVersion (n : Z)
| Unixfs_RawLeaves (b : bool)
| Unixfs_Layout_Trickle
| Unixfs_Encrypt (b : bool)
| Unixfs_Pubkey (s : string)
| Unixfs_PeerId (s : string)
| Unixfs_Mode (m : Z)
| Unixfs_Mtime (t : Z)
| Unixfs_Events (events : nat)
| Unixfs_nil.

(** [os.FileMode] is a [uint32]. *)
Definition uint32 (z : Z) : Z := z `mod` 2 ^ 32.

Section AddOptions.
(* declared elsewhere in the package *)
Context (cidVersionOptionName : string).
(* mh.Names and strings.ToLower *)
Context (mh_Names : gmap string Z) (strings_ToLower : string → string).

(** [Run] from its first line to [opts = append(opts, nil)] (the events
    option placeholder): an error returned on the way, or the options built.
    [GetApi] and [GetCidEncoder] are the errors of the two calls of
    [cmdenv]. *)
Definition Add_Run_opts (GetApi GetCidEncoder : option error)
    (Options : gmap string OptVal) : error + list UnixfsAddOption :=
  match GetApi with
  | Some err => inl err
  | None =>
  let progress := (as_bool (Options !! progressOptionName)).1 in
  let trickle := (as_bool (Options !! trickleOptionName)).1 in
  let hash := (as_bool (Options !! onlyHashOptionName)).1 in
  let silent := (as_bool (Options !! silentOptionName)).1 in
  let chunker := (as_string (Options !! chunkerOptionName)).1 in
  let dopin := (as_bool (Options !! pinOptionName)).1 in
  let '(rawblks, rbset) := as_bool (Options !! rawLeavesOptionName) in
  let nocopy := (as_bool (Options !! noCopyOptionName)).1 in
  let fscache := (as_bool (Options !! fstoreCacheOptionName)).1 in
  let '(cidVer, cidVerSet) := as_int (Options !! cidVersionOptionName) in
  let hashFunStr := (as_string (Options !! hashOptionName)).1 in
  let inline := (as_bool (Options !! inlineOptionName)).1 in
  let inlineLimit := (as_int (Options !! inlineLimitOptionName)).1 in
  let tokenMetadata := (as_string (Options !! tokenMetaOptionName)).1 in
  let encrypt := (as_bool (Options !! encryptName)).1 in
  let pubkey := (as_string (Options !! pubkeyName)).1 in
  let peerId := (as_string (Options !! peerIdName)).1 in
  let pinDuration := (as_int (Options !! pinDurationCountOptionName)).1 in
  let preserveMode := (as_bool (Options !! preserveModeOptionName)).1 in
  let preserveMtime := (as_bool (Options !! preserveMtimeOptionName)).1 in
  let mode := (as_uint (Options !! modeOptionName)).1 in
  let mtime := (as_int64 (Options !! mtimeOptionName)).1 in
  match mh_Names !! strings_ToLower hashFunStr with
  | None => inl ("unrecognized hash function: " +:+ strings_ToLower hashFunStr)
  | Some hashFunCode =>
  match GetCidEncoder with
  | Some err => inl err
  | None =>
  let opts :=
    [Unixfs_Hash hashFunCode;
     Unixfs_Inline inline;
     Unixfs_InlineLimit inlineLimit;
     Unixfs_Chunker chunker;
     Unixfs_Pin dopin;
     Unixfs_HashOnly hash;
     Unixfs_FsCache fscache;
     Unixfs_Nocopy nocopy;
     Unixfs_Progress progress;
     Unixfs_Silent silent;
     Unixfs_TokenMetadata tokenMetadata;
     Unixfs_PinDuration (int64 pinDuration);
     Unixfs_PreserveMode preserveMode;
     Unixfs_PreserveMtime preserveMtime] in
  let opts := if cidVerSet then opts ++ [Unixfs_CidVersion cidVer] else opts in
  let opts := if rbset then opts ++ [Unixfs_RawLeaves rawblks] else opts in
  (* Storing optional mode or mtime (UnixFS 1.5) requires root block
     to always be 'dag-pb' and not 'raw'. Below adjusts raw-leaves setting, if possible. *)
  if (preserveMode || preserveMtime || negb (mode =? 0) || negb (mtime =? 0))
     && (rbset && rawblks)
  then
    (* Error if --raw-leaves flag was explicitly passed by the user. *)
    inl (rawLeavesOptionName
         +:+ " can't be used with UnixFS metadata like mode or modification time")
  else
  (* [rbset = true; rawblks = false] in the metadata case: neither variable is
     read again *)
  let opts := if trickle then opts ++ [Unixfs_Layout_Trickle] else opts in
  let opts :=
    if encrypt
    then opts ++ [Unixfs_Encrypt encrypt] ++ [Unixfs_Pubkey pubkey]
              ++ [Unixfs_PeerId peerId]
    else opts in
  let opts := if negb (mode =? 0) then opts ++ [Unixfs_Mode (uint32 mode)] else opts in
  let opts := if negb (mtime =? 0) then opts ++ [Unixfs_Mtime mtime] else opts in
  inr (opts ++ [Unixfs_nil]) (* events option placeholder *)
  end end end.
End AddOptions.

(** ** [Run]: the loop over the entries to add *)

(** Sequential code over a state [St] that can leave its function early with
    a result [R]. *)
Inductive step (R A : Type) :=
| Go_on (a : A)
| Leave (r : R).
Arguments Go_on {R A} a.
Arguments Leave {R A} r.

Definition Proc (St R A : Type) : Type := St → step R A * St.

#[global] Instance Proc_ret {St R} : MRet (Proc St R) := λ A a st, (Go_on a, st).
#[global] Instance Proc_bind {St R} : MBind (Proc St R) := λ A B k m st,
  match m st with
  | (Go_on a, st') => k a st'
  | (Leave r, st') => (Leave r, st')
  end.

Definition leave {St R A} (r : R) : Proc St R A := λ st, (Leave r, st).
Definition act {St R} (f : St → St) : Proc St R () := λ st, (Go_on (), f st).

(** [for x := range xs { body }], the body leaving the function or going on. *)
Fixpoint for_each {St R X} (body : X → Proc St R ()) (xs : list X) : Proc St R () :=
  match xs with
  | [] => mret ()
  | x :: xs => body x;; for_each body xs
  end.

(** What the adder sends on [events]: a [*coreiface.AddEvent], or a value of
    another type. *)
Record CoreAddEvent := {
  core_Name : string;
  core_Path : option string;   (* the cid of output.Path; None when Path is nil *)
  core_Bytes : Z;
  core_Size : string;
  core_Mode : Z;
  core_Mtime : Z
}.

Inductive adder_event :=
| is_AddEvent (output : CoreAddEvent)
| other_event.

(** The command's own [AddEvent]. *)
Record AddEvent := {
  ae_Name : string;
  ae_Hash : string;
  ae_Bytes : Z;
  ae_Size : string;
  ae_Mode : string;
  ae_Mtime : Z
}.

(** The part of the node's configuration that [Run] reads. *)
Record Config := {
  Endpoint : string;
  ChainId : Z;
  PrivKey : string;
  PeerID : string;
  BttcAddr : string
}.

(** [abi.FileMetaFileMetaData], with the cid it is filed under. *)
Record FileMeta := {
  fm_cid : string;
  OwnerPeerId : string;
  From : string;
  FileName : string;
  FileExt : string;
  IsDir : bool;
  FileSize : Z;
  fm_Nonce : Z
}.

(** What the outside answers while one entry is added. *)
Record EntryScript := {
  entry_Name : string;                           (* addit.Name() *)
  entry_dir : bool;                              (* addit.Node() is a files.Directory *)
  entry_events : list (adder_event * option error);
     (* the values the adder sends before it closes [events], each with what
        res.Emit answers if the value gets emitted *)
  entry_Add : error + string;                    (* api.Unixfs().Add: its error, or pr's cid *)
  entry_Size : Z;                                (* addit.Node().Size() *)
  GetConfig : error + Config;
  Dial : option error;                           (* ethclient.Dial *)
  GetChainConfig : option string;                (* the FileMetaAddress, when ok *)
  NewFileMeta : option error;
  DecodeString : error + bytes;                  (* base64 of cfg.Identity.PrivKey *)
  ToECDSA : option error;
  PendingNonceAt : error + Z;
  NewKeyedTransactorWithChainID : option error;
  AddFileMeta : error + string                   (* the transaction's hash *)
}.

Record AddState := {
  emitted : list AddEvent;      (* res.Emit calls that returned nil *)
  dialled : list string;        (* endpoints of the clients opened, in order *)
  closed : list string;         (* clients closed, in order *)
  filed : list FileMeta;        (* contr.AddFileMeta calls *)
  printed : list string;        (* fmt.Println lines *)
  added : Z
}.

Definition AddState0 : AddState :=
  {| emitted := []; dialled := []; closed := []; filed := []; printed := [];
     added := 0 |}.

Section AddRun.
(* enc.Encode, path.Join, path.Ext, strconv.FormatUint(_, 8), %d *)
Context (enc_Encode : string → string) (path_Join : string → string → string)
        (path_Ext : string → string) (FormatUint_8 : Z → string)
        (fmt_d : Z → string).

(** The body of [for event := range events]. *)
Definition translate (e : EntryScript) (output : CoreAddEvent) : AddEvent :=
  let h := match core_Path output with
           | Some cid => enc_Encode cid
           | None => ""
           end in
  let name :=
    if negb (entry_dir e) && negb (bool_decide (entry_Name e = ""))
    then entry_Name e
    else path_Join (entry_Name e) (core_Name output) in
  {| ae_Name := name;
     ae_Hash := h;
     ae_Bytes := core_Bytes output;
     ae_Size := core_Size output;
     ae_Mode := if negb (core_Mode output =? 0)
                then "0" +:+ FormatUint_8 (core_Mode output)
                else "";
     ae_Mtime := core_Mtime output |}.

Definition on_event (e : EntryScript) (ev : adder_event * option error)
  : Proc AddState exit () :=
  match ev.1 with
  | other_event => leave (Returns (Some "unknown event type"))
  | is_AddEvent output =>
      match ev.2 with
      | Some err => leave (Returns (Some err))
      | None =>
          act (λ st, {| emitted := emitted st ++ [translate e output];
                        dialled := dialled st; closed := closed st;
                        filed := filed st; printed := printed st;
                        added := added st |})
      end
  end.

(** The [if uploadToBlockchain] block. *)
Definition file_meta (e : EntryScript) (cid : string) : Proc AddState exit () :=
  cfg ← match GetConfig e with
        | inl err => leave (Returns (Some err))
        | inr cfg => mret cfg
        end;
  let fname := entry_Name e in
  let size := entry_Size e in
  match Dial e with Some err => leave (Returns (Some err)) | None => mret () end;;
  (* defer cli.Close() *)
  act (λ st, {| emitted := emitted st; dialled := dialled st ++ [Endpoint cfg];
                closed := closed st; filed := filed st; printed := printed st;
                added := added st |});;
  contractAddress ← match GetChainConfig e with
                    | None => leave (Returns (Some ("chain " +:+ fmt_d (ChainId cfg)
                                                    +:+ " is not supported yet")))
                    | Some a => mret a
                    end;
  match NewFileMeta e with Some err => leave (Returns (Some err)) | None => mret () end;;
  pkbytesOri ← match DecodeString e with
               | inl err => leave (Returns (Some err))
               | inr b => mret b
               end;
  (* pkbytesOri[4:] *)
  (if bool_decide (length pkbytesOri < 4)%nat
   then leave (Panics 4 (length pkbytesOri)) else mret ());;
  match ToECDSA e with Some err => leave (Returns (Some err)) | None => mret () end;;
  nonce ← match PendingNonceAt e with
          | inl err => leave (Returns (Some err))
          | inr n => mret n
          end;
  match NewKeyedTransactorWithChainID e with
  | Some err => leave (Returns (Some err))
  | None => mret ()
  end;;
  let data := {| fm_cid := cid;
                 OwnerPeerId := PeerID cfg;
                 From := BttcAddr cfg;
                 FileName := fname;
                 FileExt := path_Ext fname;
                 IsDir := entry_dir e;
                 FileSize := size;
                 fm_Nonce := int64 nonce |} in
  act (λ st, {| emitted := emitted st; dialled := dialled st; closed := closed st;
                filed := filed st ++ [data]; printed := printed st;
                added := added st |});;
  tx ← match AddFileMeta e with
       | inl err => leave (Returns (Some err))
       | inr tx => mret tx
       end;
  act (λ st, {| emitted := emitted st; dialled := dialled st; closed := closed st;
                filed := filed st;
                printed := printed st
                  ++ ["Write into file meta contract successfully! Transaction hash is:  "
                      +:+ tx];
                added := added st |}).

(** One turn of [for addit.Next()]. *)
Definition add_entry (uploadToBlockchain : bool) (e : EntryScript)
  : Proc AddState exit () :=
  for_each (on_event e) (entry_events e);;
  cid ← match entry_Add e with
        | inl err => leave (Returns (Some err))
        | inr cid => mret cid
        end;
  (* added++ *)
  act (λ st, {| emitted := emitted st; dialled := dialled st; closed := closed st;
                filed := filed st; printed := printed st;
                added := int64 (added st + 1) |});;
  if uploadToBlockchain then file_meta e cid else mret ().

(** [if added == 0 { return fmt.Errorf(...) }; return nil] *)
Definition Add_Run_end : Proc AddState exit Empty_set :=
  λ st, if bool_decide (added st = 0)
        then (Leave (Returns (Some "expected a file argument")), st)
        else (Leave (Returns None), st).

(** The loop and what follows it, then the deferred [cli.Close()] calls, last
    deferred first.  [entries] are the entries the iterator yields and
    [addit_Err] what [addit.Err()] answers after them. *)
Definition Add_Run_loop (uploadToBlockchain : bool) (entries : list EntryScript)
    (addit_Err : option error) : exit * AddState :=
  let body : Proc AddState exit Empty_set :=
    for_each (add_entry uploadToBlockchain) entries;;
    match addit_Err with Some err => leave (Returns (Some err)) | None => mret () end;;
    Add_Run_end in
  match body AddState0 with
  | (Leave r, st) =>
      (r, {| emitted := emitted st; dialled := dialled st;
             closed := reverse (dialled st);
             filed := filed st; printed := printed st; added := added st |})
  | (Go_on a, _) => match a with end
  end.
End AddRun.

(** ** [PostRun]: the size goroutine *)

(** Go's [/] on integers truncates towards zero. *)
Definition div64 (a b : Z) : Z := int64 (Z.quot a b).
Definition add64 (a b : Z) : Z := int64 (a + b).

(** The loop of the encrypting branch of the goroutine of lines 596-622:
    what it sends on [sizeChan], in order.  [sizeChan] is
    [make(chan int64, 1)], its only receiver the [select] of the progress
    bar: a send completes when the channel has room, and [room] is the number
    of sends that can still complete.  The result is the values whose send
    completed and, when the goroutine is left in a send that never completes,
    the value of that send.  [sizes] are the answers of [it.Node().Size()]
    for the entries of [req.Files]. *)
Fixpoint encrypted_sizes (size : Z) (sizes : list (error + Z)) (room : nat)
  : list Z * option Z :=
  match sizes with
  | [] => ([], None)
  | inl _ :: _ => ([], None)   (* log.Warnf; return *)
  | inr s :: rest =>
      let blockCount := add64 (div64 s 16) 1 in
      let size := add64 size (mul64 blockCount 32) in
      match room with
      | O => ([], Some size)   (* sizeChan <- size, with no room and no receiver *)
      | S room =>
          let '(done, stuck) := encrypted_sizes size rest room in
          (size :: done, stuck)
      end
  end.

(** How the goroutine ends: it returns having sent [sizes], it stays for ever
    in the send of [size] having sent [sizes], or it panics on the type
    assertion [op.(bool)]. *)
Inductive size_goroutine_end :=
| sent (sizes : list Z)
| blocked (sizes : list Z) (size : Z)
| assertion_panics.

(** The goroutine, [receives] being the number of values the progress bar
    takes from [sizeChan] in all: the channel's one slot lets one send more
    than that complete.  [Files_Size] is the answer of [req.Files.Size()]. *)
Definition size_goroutine (Options : gmap string OptVal)
    (sizes : list (error + Z)) (Files_Size : error + Z) (receives : nat)
  : size_goroutine_end :=
  (* op := res.Request().Options[encryptName]; encrypt := op != nil && op.(bool) *)
  match Options !! encryptName with
  | Some (OBool true) =>
      match encrypted_sizes 0 sizes (S receives) with
      | (done, None) => sent done
      | (done, Some size) => blocked done size
      end
  | Some (OBool false) | None =>
      match Files_Size with
      | inl _ => sent []
      | inr size => sent [size]   (* the first send: the channel is empty *)
      end
  | Some _ => assertion_panics
  end.

(** ** [PostRun]: the progress bar *)

(** The part of a [pb.ProgressBar] the closure touches.  [Add64] adds to the
    current value and returns it; [Get] reads it; [Update] redraws. *)
Record Bar := {
  Total : Z;
  current : Z;
  ShowPercent : bool;
  ShowBar : bool;
  ShowTimeLeft : bool;
  updates : nat
}.

Definition ESC_2K_CR : string :=
  String (Ascii.ascii_of_nat 27) ("[2K" +:+ String (Ascii.ascii_of_nat 13) "").
Definition newline : string := String (Ascii.ascii_of_nat 10) "".

Record BarState := {
  bar : Bar;
  lastFile : string;
  lastHash : string;
  totalProgress : Z;
  prevFiles : Z;
  lastBytes : Z;
  stdout : list string;
  stderr : list string
}.

(** [pb.New64(0).SetUnits(pb.U_BYTES)] with the fields the closure then sets;
    when [progress] is off the bar is never looked at. *)
Definition BarState0 : BarState :=
  {| bar := {| Total := 0; current := 0; ShowPercent := false; ShowBar := true;
               ShowTimeLeft := false; updates := 0 |};
     lastFile := ""; lastHash := ""; totalProgress := 0; prevFiles := 0;
     lastBytes := 0; stdout := []; stderr := [] |}.

(** The case one [select] of the [LOOP] takes. *)
Inductive bar_case :=
| got_out (output : AddEvent)    (* out, ok := <-outChan with ok *)
| got_closed                     (* out, ok := <-outChan with !ok *)
| got_size (size : Z)            (* size := <-sizeChan *)
| got_ctx_done.                  (* <-req.Context.Done() *)

Inductive loop_step := next_turn | break_LOOP | return_now.

Definition bar_Update (st : BarState) : BarState :=
  {| bar := {| Total := Total (bar st); current := current (bar st);
               ShowPercent := ShowPercent (bar st); ShowBar := ShowBar (bar st);
               ShowTimeLeft := ShowTimeLeft (bar st);
               updates := S (updates (bar st)) |};
     lastFile := lastFile st; lastHash := lastHash st;
     totalProgress := totalProgress st; prevFiles := prevFiles st;
     lastBytes := lastBytes st; stdout := stdout st; stderr := stderr st |}.

Definition bar_show (total : Z) (st : BarState) : BarState :=
  {| bar := {| Total := total; current := current (bar st);
               ShowPercent := true; ShowBar := true; ShowTimeLeft := true;
               updates := updates (bar st) |};
     lastFile := lastFile st; lastHash := lastHash st;
     totalProgress := totalProgress st; prevFiles := prevFiles st;
     lastBytes := lastBytes st; stdout := stdout st; stderr := stderr st |}.

Definition write_stdout (text : string) (st : BarState) : BarState :=
  {| bar := bar st; lastFile := lastFile st; lastHash := lastHash st;
     totalProgress := totalProgress st; prevFiles := prevFiles st;
     lastBytes := lastBytes st; stdout := stdout st ++ [text];
     stderr := stderr st |}.

Definition write_stderr (text : string) (st : BarState) : BarState :=
  {| bar := bar st; lastFile := lastFile st; lastHash := lastHash st;
     totalProgress := totalProgress st; prevFiles := prevFiles st;
     lastBytes := lastBytes st; stdout := stdout st;
     stderr := stderr st ++ [text] |}.

Definition set_lastHash (h : string) (st : BarState) : BarState :=
  {| bar := bar st; lastFile := lastFile st; lastHash := h;
     totalProgress := totalProgress st; prevFiles := prevFiles st;
     lastBytes := lastBytes st; stdout := stdout st; stderr := stderr st |}.

(** The [else] branch of [if len(output.Hash) > 0], with [progress] on. *)
Definition account (output : AddEvent) (st : BarState) : BarState :=
  let lastFile1 := if bool_decide (lastFile st = "") then ae_Name output
                   else lastFile st in
  let moved := bool_decide (ae_Name output ≠ lastFile1)
               || bool_decide (ae_Bytes output < lastBytes st) in
  let prevFiles1 := if moved then add64 (prevFiles st) (lastBytes st)
                    else prevFiles st in
  let lastFile2 := if moved then ae_Name output else lastFile1 in
  let lastBytes1 := ae_Bytes output in
  let delta := int64 (add64 prevFiles1 lastBytes1 - totalProgress st) in
  let current1 := add64 (current (bar st)) delta in
  {| bar := {| Total := Total (bar st); current := current1;
               ShowPercent := ShowPercent (bar st); ShowBar := ShowBar (bar st);
               ShowTimeLeft := ShowTimeLeft (bar st);
               updates := updates (bar st) |};
     lastFile := lastFile2; lastHash := lastHash st;
     totalProgress := current1; prevFiles := prevFiles1;
     lastBytes := lastBytes1; stdout := stdout st; stderr := stderr st |}.

(** One turn of [LOOP]; [quiet] is [quiet || quieter]. *)
Definition bar_turn (quiet quieter progress : bool) (c : bar_case)
    (st : BarState) : loop_step * BarState :=
  match c with
  | got_closed =>
      (break_LOOP,
       if quieter then write_stdout (lastHash st +:+ newline) st else st)
  | got_out output =>
      if bool_decide (0 < String.length (ae_Hash output))%nat then
        let st := set_lastHash (ae_Hash output) st in
        if quieter then (next_turn, st) (* continue *)
        else
          (* clear progress bar line before we print "added x" output *)
          let st := if progress then write_stderr ESC_2K_CR st else st in
          let st :=
            if quiet then write_stdout (ae_Hash output +:+ newline) st
            else write_stdout ("added " +:+ ae_Hash output +:+ " "
                               +:+ ae_Name output +:+ newline) st in
          (next_turn, if progress then bar_Update st else st)
      else
        if negb progress then (next_turn, st) (* continue *)
        else (next_turn, bar_Update (account output st))
  | got_size size =>
      (next_turn, if progress then bar_show size st else st)
  | got_ctx_done =>
      (* don't set or print error here, that happens in the goroutine below *)
      (return_now, st)
  end.

(** What follows [LOOP]. *)
Definition bar_finish (progress : bool) (st : BarState) : BarState :=
  if progress && (Total (bar st) =? 0) && negb (current (bar st) =? 0)
  then bar_Update (bar_show (current (bar st)) st)
  else st.

(** The closure [progressBar] over the cases its [select] takes; it is still
    running when the script ends before the channel is closed or the context
    done. *)
Fixpoint progressBar_loop (quiet quieter progress : bool) (script : list bar_case)
    (st : BarState) : status * BarState :=
  match script with
  | [] => (Running, st)
  | c :: rest =>
      match bar_turn quiet quieter progress c st with
      | (next_turn, st') => progressBar_loop quiet quieter progress rest st'
      | (break_LOOP, st') => (Finished, bar_finish progress st')
      | (return_now, st') => (Finished, st')
      end
  end.

Definition progressBar (Options : gmap string OptVal) (script : list bar_case)
  : status * BarState :=
  let quiet := (as_bool (Options !! quietOptionName)).1 in
  let quieter := (as_bool (Options !! quieterOptionName)).1 in
  let quiet := quiet || quieter in
  let progress := (as_bool (Options !! progressOptionName)).1 in
  progressBar_loop quiet quieter progress script BarState0.

(** * The name resolve command: [core/commands/name/ipns.go] *)

Definition recursiveOptionName : string := "recursive".
Definition nocacheOptionName : string := "nocache".
Definition dhtRecordCountOptionName : string := "dht-record-count".
Definition dhtTimeoutOptionName : string := "dht-timeout".
Definition streamOptionName : string := "stream".

Inductive NameResolveOption :=
| Name_Cache (cache : bool)
| Depth (depth : Z)
| DhtRecordCount (rc : Z)
| DhtTimeout (d : Duration).

(** The errors a resolution can end in: [namesys.ErrResolveRecursion], which
    [Run] tells from the others by identity, or another one. *)
Inductive resolve_error :=
| ErrResolveRecursion
| resolve_failed (msg : error).

Definition Error (e : resolve_error) : error :=
  match e with
  | ErrResolveRecursion => "could not resolve name (recursion limit exceeded)"
  | resolve_failed msg => msg
  end.

(** What the outside answers to [IpnsCmd]'s [Run]. *)
Record IpnsEnv := {
  ipns_GetApi : option error;            (* cmdenv.GetApi *)
  Key_Self : error + string;             (* api.Key().Self, then self.ID().String() *)
  Name_Resolve : string * option resolve_error;
     (* api.Name().Resolve: output.String() and err *)
  EmitOnce : option error;               (* cmds.EmitOnce *)
  Name_Search : error + list (string * option resolve_error * option error)
     (* api.Name().Search: its error, or the results sent on the channel
        ([v.Path.String()], [v.Err]), each with what res.Emit answers if the
        result gets emitted *)
}.

(** What [Run] has done: the one request it made, if any, and the paths it
    emitted. *)
Record IpnsDone := {
  ipns_result : option error;
  requested : option (bool * string * list NameResolveOption);
     (* Search (true) or Resolve (false), the name, the options *)
  resolved : list string
}.

(** [for v := range output { ... }] of the streaming branch: the result and
    the paths emitted. *)
Fixpoint emit_results (recursive : bool)
    (results : list (string * option resolve_error * option error))
  : option error * list string :=
  match results with
  | [] => (None, [])
  | (path, v_Err, emit) :: rest =>
      match v_Err with
      | Some e =>
          if recursive || negb (match e with ErrResolveRecursion => true
                                           | resolve_failed _ => false end)
          then (Some (Error e), [])
          else
            match emit with
            | Some err => (Some err, [])
            | None => let '(r, ps) := emit_results recursive rest in (r, path :: ps)
            end
      | None =>
          match emit with
          | Some err => (Some err, [])
          | None => let '(r, ps) := emit_results recursive rest in (r, path :: ps)
          end
      end
  end.

Section IpnsRun.
(* time.ParseDuration *)
Context (time_ParseDuration : string → error + Duration).

Definition Ipns_Run (Options : gmap string OptVal) (Arguments : list string)
    (env : IpnsEnv) : IpnsDone :=
  let failed err := {| ipns_result := Some err; requested := None; resolved := [] |} in
  match ipns_GetApi env with
  | Some err => failed err
  | None =>
  let nocache := (as_bool (Options !! "nocache")).1 in
  let self_or_arg : error + string :=
    match Arguments with
    | [] => Key_Self env
    | name :: _ => inr name
    end in
  match self_or_arg with
  | inl err => failed err
  | inr name =>
  let recursive := (as_bool (Options !! recursiveOptionName)).1 in
  let '(rc, rcok) := as_uint (Options !! dhtRecordCountOptionName) in
  let '(dhtt, dhttok) := as_string (Options !! dhtTimeoutOptionName) in
  let stream := (as_bool (Options !! streamOptionName)).1 in
  let opts := [Name_Cache (negb nocache)] in
  let opts := if negb recursive then opts ++ [Depth 1] else opts in
  let opts := if rcok then opts ++ [DhtRecordCount rc] else opts in
  let timeout : error + list NameResolveOption :=
    if dhttok then
      match time_ParseDuration dhtt with
      | inl err => inl err
      | inr d =>
          if bool_decide (d < 0) then inl "DHT timeout value must be >= 0"
          else inr (opts ++ [DhtTimeout d])
      end
    else inr opts in
  match timeout with
  | inl err => failed err
  | inr opts =>
  let name := if negb (String.prefix "/btns/" name) then "/btns/" +:+ name else name in
  if negb stream then
    let '(output, err) := Name_Resolve env in
    let request := Some (false, name, opts) in
    match err with
    | Some e =>
        if recursive || negb (match e with ErrResolveRecursion => true
                                         | resolve_failed _ => false end)
        then {| ipns_result := Some (Error e); requested := request; resolved := [] |}
        else {| ipns_result := EmitOnce env; requested := request;
                resolved := match EmitOnce env with Some _ => [] | None => [output] end |}
    | None =>
        {| ipns_result := EmitOnce env; requested := request;
           resolved := match EmitOnce env with Some _ => [] | None => [output] end |}
    end
  else
    let request := Some (true, name, opts) in
    match Name_Search env with
    | inl err => {| ipns_result := Some err; requested := request; resolved := [] |}
    | inr results =>
        let '(r, paths) := emit_results recursive results in
        {| ipns_result := r; requested := request; resolved := paths |}
    end
  end end end.
End IpnsRun.

(** * The node's MFS root: [core/node/core.go] *)

(** A datastore: its contents, and the prefixes synced so far. *)
Record Datastore := {
  ds_data : gmap string bytes;
  ds_synced : list string
}.

(** The errors of a datastore: [datastore.ErrNotFound], or another one. *)
Inductive ds_error :=
| ErrNotFound
| ds_failed (msg : error).

Definition BlockPrefix : string := "/blocks".
Definition FilestorePrefix : string := "/filestore".
Definition dsk : string := "/local/filesroot".

(** [rootDS.Sync(ctx, prefix)] and [rootDS.Put(ctx, key, value)], each with
    the error the datastore answers. *)
Definition ds_Sync (prefix : string) (answer : option error)
  : Proc Datastore (option error) () :=
  match answer with
  | Some err => leave (Some err)
  | None => act (λ ds, {| ds_data := ds_data ds;
                          ds_synced := ds_synced ds ++ [prefix] |})
  end.

Definition ds_Put (key : string) (value : bytes) (answer : option error)
  : Proc Datastore (option error) () :=
  match answer with
  | Some err => leave (Some err)
  | None => act (λ ds, {| ds_data := <[key := value]> (ds_data ds);
                          ds_synced := ds_synced ds |})
  end.

(** [rootDS.Get(ctx, key)] of a datastore that works. *)
Definition ds_Get (key : string) (ds : Datastore) : option bytes * option ds_error :=
  match ds_data ds !! key with
  | Some value => (Some value, None)
  | None => (None, Some ErrNotFound)
  end.

(** What the datastore answers to the four calls of [pf]. *)
Record PfEnv := {
  sync_blocks : option error;
  sync_filestore : option error;
  put_root : option error;
  sync_root : option error
}.

(** The closure [pf] of [Files], given [c.Bytes()]. *)
Definition pf (env : PfEnv) (c_Bytes : bytes) (ds : Datastore)
  : option error * Datastore :=
  let body : Proc Datastore (option error) Empty_set :=
    ds_Sync BlockPrefix (sync_blocks env);;
    ds_Sync FilestorePrefix (sync_filestore env);;
    ds_Put dsk c_Bytes (put_root env);;
    ds_Sync dsk (sync_root env);;
    leave None in
  match body ds with
  | (Leave r, ds') => (r, ds')
  | (Go_on a, _) => match a with end
  end.

(** The node [Files] starts the root from. *)
Inductive root_node :=
| EmptyDirNode
| loaded (c : string).

(** What the outside answers to [Files]. *)
Record FilesEnv := {
  dag_Add : option error;          (* dag.Add(ctx, nd) *)
  cid_Cast : bytes → error + string;
  dag_Get : error + bool;          (* dag.Get: its error, or whether the node
                                      is a *merkledag.ProtoNode *)
  NewRoot : option error           (* the error of mfs.NewRoot *)
}.

Record FilesDone := {
  files_result : error + root_node;   (* [inl]: the root returned is nil *)
  dag_added : list root_node;            (* nodes given to dag.Add *)
  hooks : nat                            (* lc.Append calls *)
}.

(** [Files], from the answer [(val, err)] of [repo.Datastore().Get(mctx, dsk)]
    on. *)
Definition Files (env : FilesEnv) (val : option bytes) (err : option ds_error)
  : FilesDone :=
  let failed msg := {| files_result := inl msg; dag_added := []; hooks := 0 |} in
  let start nd added :=
    (* root, err := mfs.NewRoot(ctx, dag, nd, pf); lc.Append(...); return root, err *)
    {| files_result := match NewRoot env with
                       | Some e => inl e
                       | None => inr nd
                       end;
       dag_added := added; hooks := 1 |} in
  match err, val with
  | Some ErrNotFound, _ | _, None =>
      (* case err == datastore.ErrNotFound || val == nil *)
      match dag_Add env with
      | Some e =>
          {| files_result := inl ("failure writing to dagstore: " +:+ e);
             dag_added := [EmptyDirNode]; hooks := 0 |}
      | None => start EmptyDirNode [EmptyDirNode]
      end
  | None, Some v =>
      (* case err == nil *)
      match cid_Cast env v with
      | inl e => failed e
      | inr c =>
          match dag_Get env with
          | inl e => failed ("error loading filesroot from DAG: " +:+ e)
          | inr false => failed "expected protobuf dag node"
          | inr true => start (loaded c) []
          end
      end
  | Some (ds_failed msg), Some _ =>
      (* default *)
      failed msg
  end.

(** ** Vocabulary for the add command *)

(** Some option asks for little output: [quiet || quieter || silent]. *)
Definition hushed (Options : gmap string OptVal) : bool :=
  (as_bool (Options !! quietOptionName)).1
  || (as_bool (Options !! quieterOptionName)).1
  || (as_bool (Options !! silentOptionName)).1.

(** The values of the [RawLeaves] options in a list of options. *)
Definition raw_leaves_in (opts : list UnixfsAddOption) : list bool :=
  omap (λ o, match o with Unixfs_RawLeaves b => Some b | _ => None end) opts.

(** Values sent by the adder as [Run] emits them for entry [e]. *)
Definition events_of (enc_Encode : string → string)
    (path_Join : string → string → string) (FormatUint_8 : Z → string)
    (e : EntryScript) (evs : list (adder_event * option error)) : list AddEvent :=
  omap (λ ev, match ev.1 with
              | is_AddEvent output =>
                  Some (translate enc_Encode path_Join FormatUint_8 e output)
              | other_event => None
              end) evs.

(** The events of an entry as [Run] emits them. *)
Definition translations (enc_Encode : string → string)
    (path_Join : string → string → string) (FormatUint_8 : Z → string)
    (e : EntryScript) : list AddEvent :=
  events_of enc_Encode path_Join FormatUint_8 e (entry_events e).

(** An entry that is added without a hitch: every value the adder sends is
    an [AddEvent] that [res.Emit] accepts, and [Add] returns no error. *)
Definition added_cleanly (e : EntryScript) : Prop :=
  Forall (λ ev, ∃ output, ev = (is_AddEvent output, None)) (entry_events e)
  ∧ ∃ cid, entry_Add e = inr cid.

(** An entry of the concrete world whose private key decodes to [key]. *)
Definition demo_entry (key : bytes) : EntryScript :=
  {| entry_Name := "a.txt"; entry_dir := false;
     entry_events :=
       [(is_AddEvent {| core_Name := "a.txt"; core_Path := Some "Qm1";
                        core_Bytes := 0; core_Size := "5";
                        core_Mode := 0; core_Mtime := 0 |}, None)];
     entry_Add := inr "Qm1"; entry_Size := 5;
     GetConfig := inr {| Endpoint := "https://rpc"; ChainId := 199;
                         PrivKey := "CAIS"; PeerID := "16Uiu2"; BttcAddr := "0x1" |};
     Dial := None; GetChainConfig := Some "0xmeta"; NewFileMeta := None;
     DecodeString := inr key; ToECDSA := None; PendingNonceAt := inr 0;
     NewKeyedTransactorWithChainID := None; AddFileMeta := inr "0xtx" |}.

(** A request with [quieter] on. *)
Definition hushing : gmap string OptVal := {[ quieterOptionName := OBool true ]}.

(** A request for a name with a DHT timeout. *)
Definition timed : gmap string OptVal := {[ dhtTimeoutOptionName := OString "30s" ]}.

(** A world in which names resolve after one step too many. *)
Definition looping : IpnsEnv :=
  {| ipns_GetApi := None; Key_Self := inr "QmSelf";
     Name_Resolve := ("/btns/QmNext", Some ErrResolveRecursion);
     EmitOnce := None;
     Name_Search := inr [("/btfs/QmA", None, None);
                         ("/btns/QmNext", Some ErrResolveRecursion, None);
                         ("/btfs/QmB", Some (resolve_failed "routing: not found"), None)] |}.

(** The paths of the results of a search. *)
Definition paths_of (results : list (string * option resolve_error * option error))
  : list string :=
  (λ r, r.1.1) <$> results.

(** A request for a stream. *)
Definition streaming : gmap string OptVal := {[ streamOptionName := OBool true ]}.

(** An answer with the recursion limit forgiven. *)
Definition forgive (e : option resolve_error) : option resolve_error :=
  match e with
  | Some ErrResolveRecursion => None
  | other => other
  end.

(** The world [env], were no resolution ever to end at the recursion limit. *)
Definition forgiving (env : IpnsEnv) : IpnsEnv :=
  {| ipns_GetApi := ipns_GetApi env; Key_Self := Key_Self env;
     Name_Resolve := ((Name_Resolve env).1, forgive (Name_Resolve env).2);
     EmitOnce := EmitOnce env;
     Name_Search := match Name_Search env with
                    | inl err => inl err
                    | inr results => inr ((λ r, (r.1.1, forgive r.1.2, r.2)) <$> results)
                    end |}.

(** A datastore that takes every call. *)
Definition sound : PfEnv :=
  {| sync_blocks := None; sync_filestore := None; put_root := None;
     sync_root := None |}.

(** A DAG that holds the saved root. *)
Definition holding : FilesEnv :=
  {| dag_Add := None;
     cid_Cast := λ v, match v with [] => inl "invalid cid" | _ => inr "QmRoot" end;
     dag_Get := inr true; NewRoot := None |}.

(** A request with [encrypt] on. *)
Definition encrypting : gmap string OptVal := {[ encryptName := OBool true ]}.

(** The values the size goroutine has put on [sizeChan], and those it has
    offered: the former and the one it is left sending, if any. *)
Definition taken (e : size_goroutine_end) : list Z :=
  match e with
  | sent sizes | blocked sizes _ => sizes
  | assertion_panics => []
  end.

Definition offered (e : size_goroutine_end) : list Z :=
  match e with
  | sent sizes => sizes
  | blocked sizes size => sizes ++ [size]
  | assertion_panics => []
  end.

(** [size] sums, and the sums of the longer and longer prefixes. *)
Definition total (sizes : list Z) : Z := foldr Z.add 0 sizes.

(** A case of the progress bar's [select] after which [LOOP] goes on. *)
Definition goes_on (c : bar_case) : Prop :=
  match c with got_out _ | got_size _ => True | _ => False end.

(** The hash of the last event of a script that has one ([h] if none has). *)
Fixpoint last_hash (h : string) (script : list bar_case) : string :=
  match script with
  | got_out output :: rest =>
      last_hash (if bool_decide (0 < String.length (ae_Hash output))%nat
                 then ae_Hash output else h) rest
  | _ :: rest => last_hash h rest
  | [] => h
  end.

(** The bar's position is where the closure believes it to be, and that is
    the bytes of the files done plus those of the file in hand. *)
Definition in_step (st : BarState) : Prop :=
  totalProgress st = current (bar st)
  ∧ current (bar st) = int64 (prevFiles st + lastBytes st).

(** Some option asks for UnixFS metadata. *)
Definition wants_metadata (Options : gmap string OptVal) : bool :=
  (as_bool (Options !! preserveModeOptionName)).1
  || (as_bool (Options !! preserveMtimeOptionName)).1
  || negb ((as_uint (Options !! modeOptionName)).1 =? 0)
  || negb ((as_int64 (Options !! mtimeOptionName)).1 =? 0).

(** * Properties *)

(** ** Arithmetic *)

Lemma int64_id z : - 2 ^ 63 ≤ z < 2 ^ 63 → int64 z = z.
Proof. intros Hz. unfold int64. rewrite Z.mod_small; lia. Qed.

Lemma int64_range z : - 2 ^ 63 ≤ int64 z < 2 ^ 63.
Proof. unfold int64. pose proof (Z.mod_pos_bound (z + 2 ^ 63) (2 ^ 64)). lia. Qed.

Lemma mul64_exact a n :
  Z.of_nat n < 2 ^ 63 → - 2 ^ 63 ≤ a * Z.of_nat n < 2 ^ 63 →
  mul64 a (int64 (Z.of_nat n)) = a * Z.of_nat n.
Proof.
  intros Hn Hp. unfold mul64. rewrite (int64_id (Z.of_nat n)) by lia.
  by apply int64_id.
Qed.

(** Beyond 64 bits the product wraps around: four shards at [2 ^ 62] each
    come to 0. *)
Remark mul64_wraps : mul64 (2 ^ 62) (int64 4) = 0.
Proof. reflexivity. Qed.

(** ** The token check *)

Lemma includes_token_spec token (mpToken : gmap string Address) :
  includes_token token mpToken = true ↔ ∃ k, mpToken !! k = Some token.
Proof.
  unfold includes_token.
  apply (map_fold_weak_ind
           (λ (ok : bool) (m : gmap string Address),
              ok = true ↔ ∃ k, m !! k = Some token)).
  - split; [done|]. intros [k Hk]. by rewrite lookup_empty in Hk.
  - intros k v m ok Hfresh IH. case_bool_decide as Hv.
    + split; [|done]. intros _. exists k. subst v. apply lookup_insert_eq.
    + rewrite IH. split; intros [k' Hk'].
      * exists k'. rewrite lookup_insert_ne; [done|]. intros ->. congruence.
      * exists k'. destruct (decide (k = k')) as [->|Hne].
        -- rewrite lookup_insert_eq in Hk'. congruence.
        -- by rewrite lookup_insert_ne in Hk'.
Qed.

(** ** One attempt *)

Ltac step_attempt :=
  unfold call, attempt, begin_attempt, To_RssToErrorEvent, hp_NextValidHost,
    P2PCall, make_chan, ShardErrChanMap_Set, ShardErrChanMap_Remove,
    RenterSignGuardContract, time_Tick, push_after_return, send_blocks,
    effect, return_, mbind, M_bind, mret, M_ret;
  cbn.

Section Attempt.
Context (W : Collaborators).
Context (rss : RenterSession) (price : Z) (token : Address)
        (shardSize storageLength : Z) (renterId : string) (expectOnePay : Z).

Local Abbreviation op i h :=
  (λ env, call (attempt W rss price token shardSize storageLength renterId
                  expectOnePay i h env)).
Local Abbreviation result i h :=
  (result_of W rss price token shardSize storageLength renterId expectOnePay i h).
Local Abbreviation again i h :=
  (retried W rss price token shardSize storageLength renterId expectOnePay i h).

Lemma attempt_result i h env st : (op i h env st).1 = result i h env.
Proof.
  unfold result_of. destruct env as [done nvh sup u t sg w].
  step_attempt.
  destruct done; [done|]. destruct nvh as [e|host]; [done|]. cbn.
  destruct (peer_Decode W host) as [e|pid]; [done|]. cbn.
  destruct sup as [e|out]; [done|]. cbn.
  destruct (json_Unmarshal W out) as [e|mp]; [done|]. cbn.
  destruct (includes_token token mp); [|done]. cbn.
  destruct sg as [e|b]; [done|]. cbn.
  destruct w as [v [p|]|e|[p|]]; done.
Qed.

(** An attempt that ends in an error has raised no session error event, and
    every attempt is counted once. *)
Lemma attempt_error_silent i h env st e :
  (op i h env st).1 = Some e →
  error_events (op i h env st).2 = error_events st.
Proof.
  destruct env as [done nvh sup u t sg w].
  step_attempt.
  destruct done; [done|]. destruct nvh as [e'|host]; [done|]. cbn.
  destruct (peer_Decode W host) as [e'|pid]; [done|]. cbn.
  destruct sup as [e'|out]; [done|]. cbn.
  destruct (json_Unmarshal W out) as [e'|mp]; [done|]. cbn.
  destruct (includes_token token mp); [|done]. cbn.
  destruct sg as [e'|b]; [done|]. cbn.
  destruct w as [v [p|]|e'|[p|]]; done.
Qed.

Lemma attempt_counted i h env st :
  attempts (op i h env st).2 = S (attempts st).
Proof.
  destruct env as [done nvh sup u t sg w].
  step_attempt.
  destruct done; [done|]. destruct nvh as [e'|host]; [done|]. cbn.
  destruct (peer_Decode W host) as [e'|pid]; [done|]. cbn.
  destruct sup as [e'|out]; [done|]. cbn.
  destruct (json_Unmarshal W out) as [e'|mp]; [done|]. cbn.
  destruct (includes_token token mp); [|done]. cbn.
  destruct sg as [e'|b]; [done|]. cbn.
  destruct w as [v [p|]|e'|[p|]]; done.
Qed.

Lemma Retry_retried i h pre st :
  Forall (again i h) pre →
  ∃ st', (∀ rest, Retry (op i h) (pre ++ rest) st = Retry (op i h) rest st')
         ∧ error_events st' = error_events st
         ∧ attempts st' = (attempts st + length pre)%nat.
Proof.
  intros Hpre. revert st.
  induction Hpre as [|[env next] pre [[e He] [d Hd]] _ IH]; intros st.
  - exists st. split_and!; [done|done|cbn; lia].
  - cbn in He, Hd. subst next.
    destruct (IH (op i h env st).2) as (st' & Hrun & Hev & Hn).
    exists st'. split_and!.
    + intros rest. cbn [app Retry].
      pose proof (attempt_result i h env st) as Hr. rewrite He in Hr.
      destruct (op i h env st) as [r st1]. cbn in Hr, Hrun. subst r.
      apply Hrun.
    + rewrite Hev. eapply attempt_error_silent.
      rewrite attempt_result. exact He.
    + rewrite Hn, attempt_counted. cbn. lia.
Qed.
End Attempt.

(** ** The payment preflight *)

(** Four shards at a pay of [2 ^ 62] each (a price and a shard size of
    [2 ^ 31]): the exact total is [2 ^ 64], the balance is checked against 0,
    and with a balance of 1000 the call goes on to start its five
    goroutines. *)
Lemma preflight_total_wraps :
  let o := UploadShard demo four_shards (2 ^ 31) 7 (2 ^ 31) 1 [0; 1; 2; 3] in
  TotalPay demo (2 ^ 31) (2 ^ 31) 1 1 = inr (2 ^ 62) ∧
  2 ^ 62 * Z.of_nat (length (ShardHashes four_shards)) = 2 ^ 64 ∧
  preflight o = [RateLookup 7; PayComputation (2 ^ 31) (2 ^ 31) 1 1;
                 BalanceCheck 0 7] ∧
  (BalanceCheck (2 ^ 64) 7 ∉ preflight o) ∧
  checkAvailableBalance demo (2 ^ 64) 7 = Some "insufficient balance" ∧
  exit_of o = Returns None ∧
  launched o = [Negotiator (2 ^ 62) 0 "h0"; Negotiator (2 ^ 62) 1 "h1";
                Negotiator (2 ^ 62) 2 "h2"; Negotiator (2 ^ 62) 3 "h3";
                Watcher 4].
Proof.
  cbv zeta. split_and!; try (vm_compute; reflexivity).
  intros Hin. vm_compute in Hin.
  repeat (apply elem_of_cons in Hin as [Hin|Hin]; [discriminate Hin|]).
  by apply elem_of_nil in Hin.
Qed.

(** C1. The amount checked against the renter's balance is the per-shard pay
    times the number of shard hashes, in [int64] arithmetic (the exact product
    whenever that fits); and when the rate lookup, the pay computation or the
    balance check fails, [UploadShard] returns that error having started no
    goroutine, so that the session leaves the world as it found it: no host
    drawn or called, nothing registered. *)
Theorem preflight_total_and_abort (W : Collaborators) (rss : RenterSession)
    (price : Z) (token : Address) (shardSize storageLength : Z)
    (offlineSigning : bool) (renterId : string) (fileSize : Z)
    (shardIndexes : list Z) :
  let n := Z.of_nat (length (ShardHashes rss)) in
  let o := UploadShard W rss price token shardSize storageLength shardIndexes in
  let aborted (err : error) :=
    exit_of o = Returns (Some err) ∧ launched o = [] ∧
    ∀ ss st, session W rss price token shardSize storageLength offlineSigning
               renterId fileSize shardIndexes ss st = (Returns (Some err), st) in
  (∀ err, CurrentRate W token = inl err → aborted err) ∧
  (∀ rate err, CurrentRate W token = inr rate →
     TotalPay W shardSize price storageLength rate = inl err → aborted err) ∧
  (∀ rate expectOnePay, CurrentRate W token = inr rate →
     TotalPay W shardSize price storageLength rate = inr expectOnePay →
     (∀ amount tok, BalanceCheck amount tok ∈ preflight o ↔
                    amount = mul64 expectOnePay (int64 n) ∧ tok = token) ∧
     (n < 2 ^ 63 → - 2 ^ 63 ≤ expectOnePay * n < 2 ^ 63 →
      mul64 expectOnePay (int64 n) = expectOnePay * n) ∧
     (∀ err, checkAvailableBalance W (mul64 expectOnePay (int64 n)) token = Some err →
             aborted err)).
Proof.
  cbv zeta. unfold session, UploadShard. split_and!.
  - intros err ->. done.
  - intros rate err -> ->. done.
  - intros rate expectOnePay -> ->. split_and!.
    + intros amount tok.
      assert (BalanceCheck amount tok ∈
                [RateLookup token; PayComputation shardSize price storageLength rate;
                 BalanceCheck
                   (mul64 expectOnePay (int64 (Z.of_nat (length (ShardHashes rss)))))
                   token] ↔
              amount = mul64 expectOnePay (int64 (Z.of_nat (length (ShardHashes rss))))
              ∧ tok = token) as Hin.
      { rewrite !elem_of_cons, elem_of_nil. split.
        - intros [?|[?|[[= -> ->]|[]]]]; done.
        - intros [-> ->]. auto. }
      destruct (checkAvailableBalance W _ token); [by apply Hin|].
      destruct (launch_negotiators _ _ _ _) as [gs [panic|]]; by apply Hin.
    + apply mul64_exact.
    + intros err ->. done.
Qed.

(** The same at a balance that is too small: the pay for two shards, 1600,
    exceeds the balance of 1000, and the session ends where it began. *)
Lemma preflight_total_and_abort_witness :
  session demo demo_session 2 7 100 4 false "renter" 4096 [0; 1] [] initial
  = (Returns (Some "insufficient balance"), initial).
Proof.
  pose proof (preflight_total_and_abort demo demo_session 2 7 100 4 false
                "renter" 4096 [0; 1]) as H.
  cbv zeta in H. destruct H as (_ & _ & H).
  destruct (H 1 800 eq_refl eq_refl) as (_ & _ & Habort).
  destruct (Habort "insufficient balance" eq_refl) as (_ & _ & Hsession).
  exact (Hsession [] initial).
Defined.

(** ** The completion watcher *)

Ltac step_watcher :=
  unfold watcher_turn, Submit, To_RssToErrorEvent, effect, return_, mbind,
    M_bind, mret, M_ret; cbn.





(** ** The stages of an attempt *)

Section Stages.
Context (W : Collaborators).
Context (rss : RenterSession) (price : Z) (token : Address)
        (shardSize storageLength : Z) (renterId : string) (expectOnePay : Z).

Local Abbreviation op i h :=
  (λ env, call (attempt W rss price token shardSize storageLength renterId
                  expectOnePay i h env)).

(** Stage 1: the context is done. *)
Lemma attempt_cancelled i h env st :
  ctx_done env = true → op i h env st = (None, on_attempts S st).
Proof. intros Hd. step_attempt. by rewrite Hd. Qed.

(** Stage 2: no host. *)
Lemma attempt_no_host i h env err st :
  ctx_done env = false → NextValidHost env = inl err →
  op i h env st
  = (None, on_error_events (λ l, l ++ [err]) (on_host_draws S (on_attempts S st))).
Proof. intros Hd Hh. step_attempt. by rewrite Hd, Hh. Qed.

(** Every attempt that gets past stage 1 draws a host. *)
Lemma attempt_draws_host i h env st :
  ctx_done env = false → host_draws (op i h env st).2 = S (host_draws st).
Proof.
  destruct env as [done nvh sup u t sg w]. cbn. intros ->.
  step_attempt.
  destruct nvh as [e'|host]; [done|]. cbn.
  destruct (peer_Decode W host) as [e'|pid]; [done|]. cbn.
  destruct sup as [e'|out]; [done|]. cbn.
  destruct (json_Unmarshal W out) as [e'|mp]; [done|]. cbn.
  destruct (includes_token token mp); [|done]. cbn.
  destruct sg as [e'|b]; [done|]. cbn.
  destruct w as [v [p|]|e'|[p|]]; done.
Qed.

(** The host's identifier does not decode. *)
Lemma attempt_undecodable i h env host err st :
  ctx_done env = false → NextValidHost env = inr host →
  peer_Decode W host = inl err →
  op i h env st = (Some err, on_host_draws S (on_attempts S st)).
Proof. intros Hd Hh Hp. step_attempt. rewrite Hd, Hh. cbn. by rewrite Hp. Qed.

(** Stage 3: the host's answer lacks the token.  The attempt ends with [nil]
    after the one remote call; it raises no event and registers nothing. *)
Lemma attempt_token_unsupported i h env host pid mpToken st :
  answers_tokens W env host pid mpToken →
  includes_token token mpToken = false →
  op i h env st
  = (None,
     on_p2p_calls
       (λ l, l ++ [{| req_budget := 60 * Second; req_host := pid;
                      req_route := "/storage/upload/supporttokens" |}])
       (on_host_draws S (on_attempts S st))).
Proof.
  intros (Hd & Hh & Hp & out & Hs & Hj) Hno. step_attempt.
  rewrite Hd, Hh. cbn. rewrite Hp. cbn. rewrite Hs. cbn. rewrite Hj. cbn.
  by rewrite Hno.
Qed.

(** Stages 4 to 7.  The contract id is [NewContractID] of the session id; the
    channel registered under it is the unbuffered [cb]. *)
Lemma attempt_after_registration i h env host pid mpToken st :
  answers_tokens W env host pid mpToken →
  includes_token token mpToken = true →
  let contractId := NewContractID W (SsId rss) (uuid env) in
  let cb := {| chan_id := chans_made st; chan_cap := 0 |} in
  let r := op i h env st in
  let registered := <[contractId := cb]> (ShardErrChanMap st) in
  error_events r.2 = error_events st ∧
  match sign env with
  | inl err =>
      r.1 = Some err ∧ ShardErrChanMap r.2 = registered ∧
      stuck_senders r.2 = stuck_senders st
  | inr _ =>
      match wait env with
      | AckFirst v push =>
          r.1 = v ∧ ShardErrChanMap r.2 = delete contractId registered ∧
          stuck_senders r.2
          = stuck_senders st ++ match push with Some _ => [cb] | None => [] end
      | PushErrFirst e =>
          r.1 = Some e ∧ ShardErrChanMap r.2 = delete contractId registered ∧
          stuck_senders r.2 = stuck_senders st
      | TickFirst push =>
          r.1 = Some "host timeout" ∧ ShardErrChanMap r.2 = registered ∧
          stuck_senders r.2
          = stuck_senders st ++ match push with Some _ => [cb] | None => [] end
      end
  end ∧
  ContractId <$> signed r.2 = (ContractId <$> signed st) ++ [contractId] ∧
  ShardIndex <$> signed r.2 = (ShardIndex <$> signed st) ++ [int32 i].
Proof.
  intros (Hd & Hh & Hp & out & Hs & Hj) Hyes. cbv zeta.
  destruct env as [done nvh sup u t sg w]. cbn in *. subst done nvh sup.
  step_attempt. rewrite Hp. cbn. rewrite Hj. cbn. rewrite Hyes. cbn.
  destruct sg as [e|b]; cbn.
  - rewrite !fmap_app. done.
  - destruct w as [v [p|]|e|[p|]]; cbn; rewrite ?fmap_app, ?app_nil_r; done.
Qed.
End Stages.

Lemma demo_answers_tokens env :
  ctx_done env = false → NextValidHost env = inr "host1" →
  supporttokens env = inr [] →
  answers_tokens demo env "host1" "host1" {[ "WBTT" := 7 ]}.
Proof. intros Hd Hh Hs. split_and!; [done..|]. by exists []. Qed.

(** ** The negotiator *)

(** C5. An attempt that finds the session context done returns [nil] and does
    nothing else; [backoff.Retry] therefore stops, and the negotiator ends
    having raised no session error event, whatever attempts were retried
    before and whatever the script holds after. *)
Theorem cancellation_stops_retry_silently (W : Collaborators)
    (rss : RenterSession) (price : Z) (token : Address)
    (shardSize storageLength : Z) (renterId : string) (expectOnePay i : Z)
    (h : string) (pre post : list (AttemptEnv * option Duration))
    (env : AttemptEnv) (next : option Duration) (st : State) :
  ctx_done env = true →
  Forall (retried W rss price token shardSize storageLength renterId
            expectOnePay i h) pre →
  (∀ st0, call (attempt W rss price token shardSize storageLength renterId
                  expectOnePay i h env) st0 = (None, on_attempts S st0)) ∧
  ∃ st', negotiator W rss price token shardSize storageLength renterId
           expectOnePay i h (pre ++ (env, next) :: post) st = (Finished, st')
         ∧ error_events st' = error_events st
         ∧ attempts st' = (attempts st + length pre + 1)%nat.
Proof.
  intros Hd Hpre. split; [intros st0; by apply attempt_cancelled|].
  destruct (Retry_retried _ _ _ _ _ _ _ _ _ _ _ st Hpre) as (st1 & Hrun & Hev & Hn).
  exists (on_attempts S st1). unfold negotiator. rewrite Hrun. cbn [Retry].
  rewrite attempt_cancelled by done. split_and!; [done|done|cbn; lia].
Qed.

(** A push fails, one retry is granted, and by then the session is cancelled. *)
Lemma cancellation_stops_retry_silently_witness :
  ∃ st', negotiator demo demo_session 2 7 100 4 "renter" 800 0 "h0"
           ([(env_push_failed, Some Second)]
            ++ (env_cancelled, Some Second) :: [(env_acked, None)]) initial
         = (Finished, st')
         ∧ error_events st' = error_events initial
         ∧ attempts st' = (attempts initial + 1 + 1)%nat.
Proof.
  refine (proj2 (cancellation_stops_retry_silently demo demo_session 2 7 100 4
                   "renter" 800 0 "h0" [(env_push_failed, Some Second)]
                   [(env_acked, None)] env_cancelled (Some Second) initial
                   eq_refl _)).
  repeat constructor; cbn; eauto.
Defined.

(** C6. When every attempt ends in an error and [NextBackOff] finally answers
    [Stop], the negotiator raises exactly one session error event, whose
    message names the configured [MaxElapsedTime], and makes no further
    attempt: the rest of the script is never run. *)
Theorem backoff_exhaustion_raises_one_event (W : Collaborators)
    (rss : RenterSession) (price : Z) (token : Address)
    (shardSize storageLength : Z) (renterId : string) (expectOnePay i : Z)
    (h : string) (pre post : list (AttemptEnv * option Duration))
    (env : AttemptEnv) (st : State) :
  Forall (retried W rss price token shardSize storageLength renterId
            expectOnePay i h) pre →
  is_Some (result_of W rss price token shardSize storageLength renterId
             expectOnePay i h env) →
  ∃ st', negotiator W rss price token shardSize storageLength renterId
           expectOnePay i h (pre ++ (env, None) :: post) st = (Finished, st')
         ∧ error_events st'
           = error_events st
             ++ ["timeout: failed to setup contract in "
                 +:+ Duration_String W (MaxElapsedTime W)]
         ∧ attempts st' = (attempts st + length pre + 1)%nat.
Proof.
  intros Hpre [e He].
  destruct (Retry_retried _ _ _ _ _ _ _ _ _ _ _ st Hpre) as (st1 & Hrun & Hev & Hn).
  unfold negotiator. rewrite Hrun. cbn [Retry].
  pose proof (attempt_result W rss price token shardSize storageLength renterId
                expectOnePay i h env st1) as Hr.
  pose proof (attempt_error_silent W rss price token shardSize storageLength
                renterId expectOnePay i h env st1 e) as Hs.
  pose proof (attempt_counted W rss price token shardSize storageLength
                renterId expectOnePay i h env st1) as Hc.
  rewrite He in Hr. specialize (Hs Hr). cbv beta in *. revert Hr Hs Hc.
  destruct (call _ st1) as [r st2]. cbn. intros -> Hs Hc.
  eexists. split_and!; [done| |].
  - cbn. by rewrite Hs, Hev.
  - cbn. rewrite Hc, Hn. lia.
Qed.

(** The push fails twice; after the second failure the budget is spent. *)
Lemma backoff_exhaustion_raises_one_event_witness :
  ∃ st', negotiator demo demo_session 2 7 100 4 "renter" 800 0 "h0"
           ([(env_push_failed, Some Second)]
            ++ (env_push_failed, None) :: [(env_acked, None)]) initial
         = (Finished, st')
         ∧ error_events st'
           = error_events initial ++ ["timeout: failed to setup contract in 5m0s"]
         ∧ attempts st' = (attempts initial + 1 + 1)%nat.
Proof.
  refine (backoff_exhaustion_raises_one_event demo demo_session 2 7 100 4
            "renter" 800 0 "h0" [(env_push_failed, Some Second)]
            [(env_acked, None)] env_push_failed initial _ _).
  - repeat constructor; cbn; eauto.
  - cbn. eauto.
Defined.

(** C10. When [NextValidHost] hands out a host whose identifier does not
    decode, the attempt returns the decode error: it raises no session error
    event, calls no host and registers nothing; [backoff.Retry], granted a
    delay, runs the closure again, and that run draws a host anew. *)
Theorem undecodable_host_is_retried (W : Collaborators)
    (rss : RenterSession) (price : Z) (token : Address)
    (shardSize storageLength : Z) (renterId : string) (expectOnePay i : Z)
    (h : string) (env : AttemptEnv) (host : string) (err : error) (st : State) :
  ctx_done env = false → NextValidHost env = inr host →
  peer_Decode W host = inl err →
  let op := λ env, call (attempt W rss price token shardSize storageLength
                           renterId expectOnePay i h env) in
  let st1 := on_host_draws S (on_attempts S st) in
  op env st = (Some err, st1) ∧
  (∀ delay rest, Retry op ((env, Some delay) :: rest) st = Retry op rest st1) ∧
  (∀ env', ctx_done env' = false →
           host_draws (op env' st1).2 = S (S (host_draws st))).
Proof.
  intros Hd Hh Hp. cbv zeta. split_and!.
  - by eapply attempt_undecodable.
  - intros delay rest. cbn [Retry]. by erewrite attempt_undecodable.
  - intros env' Hd'. by rewrite attempt_draws_host.
Qed.

(** An undecodable host, a retry, and a host that acknowledges. *)
Lemma undecodable_host_is_retried_witness :
  let op := λ env, call (attempt demo demo_session 2 7 100 4 "renter" 800 0 "h0" env) in
  Retry op ((env_undecodable, Some Second) :: [(env_acked, None)]) initial
  = Retry op [(env_acked, None)] (on_host_draws S (on_attempts S initial)).
Proof.
  exact (proj1 (proj2 (undecodable_host_is_retried demo demo_session 2 7 100 4
                         "renter" 800 0 "h0" env_undecodable ""
                         "failed to parse peer ID" initial eq_refl eq_refl eq_refl))
               Second [(env_acked, None)]).
Defined.

(** ** The contract registry *)

(** C3. An attempt whose 30-second wait times out returns ["host timeout"]
    with the entry it registered still in the registry: only the receive case
    of the [select] calls [Remove]. *)
Theorem timed_out_attempt_keeps_its_entry (W : Collaborators)
    (rss : RenterSession) (price : Z) (token : Address)
    (shardSize storageLength : Z) (renterId : string) (expectOnePay i : Z)
    (h : string) (env : AttemptEnv) (host pid : string)
    (mpToken : gmap string Address) (guardContractBytes : bytes)
    (push : option error) (st : State) :
  answers_tokens W env host pid mpToken →
  includes_token token mpToken = true →
  sign env = inr guardContractBytes →
  wait env = TickFirst push →
  let r := call (attempt W rss price token shardSize storageLength renterId
                   expectOnePay i h env) st in
  r.1 = Some "host timeout" ∧
  ShardErrChanMap r.2
  = <[NewContractID W (SsId rss) (uuid env)
      := {| chan_id := chans_made st; chan_cap := 0 |}]> (ShardErrChanMap st).
Proof.
  intros Hans Hyes Hsign Hwait. cbv zeta.
  pose proof (attempt_after_registration W rss price token shardSize
                storageLength renterId expectOnePay i h env host pid mpToken st
                Hans Hyes) as H.
  cbv zeta in H. rewrite Hsign, Hwait in H.
  by destruct H as (_ & (? & ? & _) & _).
Qed.

(** The concrete host stays silent. *)
Lemma timed_out_attempt_keeps_its_entry_witness :
  let r := call (attempt demo demo_session 2 7 100 4 "renter" 800 0 "h0"
                   (env_timed_out "u1")) initial in
  r.1 = Some "host timeout" ∧
  ShardErrChanMap r.2
  = <["ss,u1" := {| chan_id := 0; chan_cap := 0 |}]> (ShardErrChanMap initial).
Proof.
  exact (timed_out_attempt_keeps_its_entry demo demo_session 2 7 100 4 "renter"
           800 0 "h0" (env_timed_out "u1") "host1" "host1" {[ "WBTT" := 7 ]}
           [] None initial
           (demo_answers_tokens (env_timed_out "u1") eq_refl eq_refl eq_refl)
           eq_refl eq_refl eq_refl).
Defined.

(** Every retry mints an id of its own, so the entries left behind add up: a
    negotiator that times out twice ends with two. *)
Lemma timeouts_leave_entries_behind :
  let twice := negotiator demo demo_session 2 7 100 4 "renter" 800 0 "h0"
                 [(env_timed_out "u1", Some Second); (env_timed_out "u2", None)]
                 initial in
  twice.1 = Finished ∧
  ShardErrChanMap twice.2
  = {[ "ss,u1" := {| chan_id := 0; chan_cap := 0 |};
       "ss,u2" := {| chan_id := 2; chan_cap := 0 |} ]}.
Proof. cbv zeta. split; [reflexivity|]. by vm_compute. Qed.

(** C4. When the host's answer lacks the chosen token, the attempt ends with
    [nil]: [backoff.Retry] stops, the negotiator ends after this one attempt,
    and no session error event has been raised. *)
Theorem unsupported_token_raises_no_event (W : Collaborators)
    (rss : RenterSession) (price : Z) (token : Address)
    (shardSize storageLength : Z) (renterId : string) (expectOnePay i : Z)
    (h : string) (env : AttemptEnv) (host pid : string)
    (mpToken : gmap string Address) (next : option Duration)
    (rest : list (AttemptEnv * option Duration)) (st : State) :
  answers_tokens W env host pid mpToken →
  (∀ k, mpToken !! k ≠ Some token) →
  ∃ st', negotiator W rss price token shardSize storageLength renterId
           expectOnePay i h ((env, next) :: rest) st = (Finished, st')
         ∧ error_events st' = error_events st
         ∧ ShardErrChanMap st' = ShardErrChanMap st
         ∧ attempts st' = S (attempts st).
Proof.
  intros Hans Hno.
  assert (includes_token token mpToken = false) as Hfalse.
  { apply not_true_is_false. rewrite includes_token_spec.
    intros [k Hk]. by apply (Hno k). }
  unfold negotiator. cbn [Retry].
  rewrite (attempt_token_unsupported W rss price token shardSize storageLength
             renterId expectOnePay i h env host pid mpToken st Hans Hfalse).
  eexists. split_and!; reflexivity.
Qed.

(** Token 8, and a host that accepts token 7 only. *)
Lemma unsupported_token_raises_no_event_witness :
  ∃ st', negotiator demo demo_session 2 8 100 4 "renter" 800 1 "h1"
           ((env_acked, Some Second) :: [(env_acked, None)]) initial
         = (Finished, st')
         ∧ error_events st' = error_events initial
         ∧ ShardErrChanMap st' = ShardErrChanMap initial
         ∧ attempts st' = S (attempts initial).
Proof.
  refine (unsupported_token_raises_no_event demo demo_session 2 8 100 4 "renter"
            800 1 "h1" env_acked "host1" "host1" {[ "WBTT" := 7 ]} (Some Second)
            [(env_acked, None)] initial
            (demo_answers_tokens env_acked eq_refl eq_refl eq_refl) _).
  intros k Hk. apply lookup_singleton_Some in Hk. destruct Hk as [_ Hk].
  discriminate Hk.
Defined.

(** The other soft stop, no host, returns the same [nil] but raises the
    event first. *)
Lemma no_host_raises_event (W : Collaborators) (rss : RenterSession)
    (price : Z) (token : Address) (shardSize storageLength : Z)
    (renterId : string) (expectOnePay i : Z) (h : string) (env : AttemptEnv)
    (err : error) (next : option Duration)
    (rest : list (AttemptEnv * option Duration)) (st : State) :
  ctx_done env = false → NextValidHost env = inl err →
  ∃ st', negotiator W rss price token shardSize storageLength renterId
           expectOnePay i h ((env, next) :: rest) st = (Finished, st')
         ∧ error_events st' = error_events st ++ [err].
Proof.
  intros Hd Hh. unfold negotiator. cbn [Retry].
  rewrite (attempt_no_host W rss price token shardSize storageLength renterId
             expectOnePay i h env err st Hd Hh).
  eexists. split; reflexivity.
Qed.

(** C8. The channel an attempt registers is made by [make(chan error)]: its
    capacity is 0.  When the host's acknowledgement is received first and the
    push call fails afterwards, the push goroutine's [cb <- err] finds no
    receiver and no buffer, and blocks for ever. *)
Theorem late_push_error_blocks_its_sender (W : Collaborators)
    (rss : RenterSession) (price : Z) (token : Address)
    (shardSize storageLength : Z) (renterId : string) (expectOnePay i : Z)
    (h : string) (env : AttemptEnv) (host pid : string)
    (mpToken : gmap string Address) (guardContractBytes : bytes)
    (v : option error) (e : error) (st : State) :
  answers_tokens W env host pid mpToken →
  includes_token token mpToken = true →
  sign env = inr guardContractBytes →
  wait env = AckFirst v (Some e) →
  let cb := {| chan_id := chans_made st; chan_cap := 0 |} in
  let r := call (attempt W rss price token shardSize storageLength renterId
                   expectOnePay i h env) st in
  r.1 = v ∧
  send_blocks cb false 0 = true ∧
  stuck_senders r.2 = stuck_senders st ++ [cb].
Proof.
  intros Hans Hyes Hsign Hwait. cbv zeta.
  pose proof (attempt_after_registration W rss price token shardSize
                storageLength renterId expectOnePay i h env host pid mpToken st
                Hans Hyes) as H.
  cbv zeta in H. rewrite Hsign, Hwait in H.
  by destruct H as (_ & (? & _ & ?) & _).
Qed.

(** The concrete host acknowledges; the push call then runs out of time. *)
Lemma late_push_error_blocks_its_sender_witness :
  let cb := {| chan_id := 0; chan_cap := 0 |} in
  let r := call (attempt demo demo_session 2 7 100 4 "renter" 800 0 "h0"
                   env_acked_then_push_failed) initial in
  r.1 = None ∧
  send_blocks cb false 0 = true ∧
  stuck_senders r.2 = stuck_senders initial ++ [cb].
Proof.
  exact (late_push_error_blocks_its_sender demo demo_session 2 7 100 4 "renter"
           800 0 "h0" env_acked_then_push_failed "host1" "host1"
           {[ "WBTT" := 7 ]} [] None "context deadline exceeded" initial
           (demo_answers_tokens env_acked_then_push_failed eq_refl eq_refl eq_refl)
           eq_refl eq_refl eq_refl).
Defined.

(** ** Contract ids *)

(** Two attempts, for shards 0 and 1, to which the generator of
    [NewContractID] hands the same value: the second mints an id that the
    first, timed out, has left in the registry, and takes over its entry. *)
Lemma contract_id_reused_across_shards :
  let op i h := call (attempt demo demo_session 2 7 100 4 "renter" 800 i h
                        (env_timed_out "u1")) in
  let st1 := (op 0 "h0" initial).2 in
  let st2 := (op 1 "h1" st1).2 in
  ShardErrChanMap st1 !! "ss,u1" = Some {| chan_id := 0; chan_cap := 0 |} ∧
  ContractId <$> signed st2 = ["ss,u1"; "ss,u1"] ∧
  ShardIndex <$> signed st2 = [0; 1] ∧
  ShardErrChanMap st2 !! "ss,u1" = Some {| chan_id := 2; chan_cap := 0 |}.
Proof. cbv zeta. split_and!; vm_compute; reflexivity. Qed.

(** C7. The contract id an attempt mints is [NewContractID] of the
    session id: the shard index is no input to it, and attempts for different
    shards that are given the same draw mint the same id.  The attempt
    registers the id without looking it up: entries under other ids are left
    alone, and whatever was registered under the minted id is replaced (by the
    new channel, or by nothing once the attempt has removed it). *)
Theorem contract_id_from_session_id_only (W : Collaborators)
    (rss : RenterSession) (price : Z) (token : Address)
    (shardSize storageLength : Z) (renterId : string) (expectOnePay i j : Z)
    (h h' : string) (env : AttemptEnv) (host pid : string)
    (mpToken : gmap string Address) (st : State) :
  answers_tokens W env host pid mpToken →
  includes_token token mpToken = true →
  let contractId := NewContractID W (SsId rss) (uuid env) in
  let cb := {| chan_id := chans_made st; chan_cap := 0 |} in
  let ri := call (attempt W rss price token shardSize storageLength renterId
                    expectOnePay i h env) st in
  let rj := call (attempt W rss price token shardSize storageLength renterId
                    expectOnePay j h' env) st in
  ContractId <$> signed ri.2 = (ContractId <$> signed st) ++ [contractId] ∧
  ContractId <$> signed rj.2 = (ContractId <$> signed st) ++ [contractId] ∧
  ShardErrChanMap ri.2 = ShardErrChanMap rj.2 ∧
  (∀ k, k ≠ contractId → ShardErrChanMap ri.2 !! k = ShardErrChanMap st !! k) ∧
  (ShardErrChanMap ri.2 !! contractId = Some cb
   ∨ ShardErrChanMap ri.2 !! contractId = None).
Proof.
  intros Hans Hyes. cbv zeta.
  pose proof (attempt_after_registration W rss price token shardSize
                storageLength renterId expectOnePay i h env host pid mpToken st
                Hans Hyes) as Hi.
  pose proof (attempt_after_registration W rss price token shardSize
                storageLength renterId expectOnePay j h' env host pid mpToken st
                Hans Hyes) as Hj.
  cbv zeta in Hi, Hj.
  destruct Hi as (_ & Hi & Hci & _). destruct Hj as (_ & Hj & Hcj & _).
  split_and!; [done|done|..].
  - destruct (sign env) as [e|b].
    + destruct Hi as (_ & -> & _). by destruct Hj as (_ & -> & _).
    + destruct (wait env) as [v push|e|push];
        destruct Hi as (_ & -> & _); by destruct Hj as (_ & -> & _).
  - intros k Hk.
    destruct (sign env) as [e|b]; [|destruct (wait env) as [v push|e|push]];
      destruct Hi as (_ & -> & _);
      rewrite ?lookup_delete_ne, ?lookup_insert_ne by done; done.
  - destruct (sign env) as [e|b]; [|destruct (wait env) as [v push|e|push]];
      destruct Hi as (_ & -> & _);
      rewrite ?lookup_delete_eq, ?lookup_insert_eq; auto.
Qed.

(** Shards 0 and 1 of the concrete session, the same draw ["u1"]. *)
Lemma contract_id_from_session_id_only_witness :
  let ri := call (attempt demo demo_session 2 7 100 4 "renter" 800 0 "h0"
                    (env_timed_out "u1")) initial in
  let rj := call (attempt demo demo_session 2 7 100 4 "renter" 800 1 "h1"
                    (env_timed_out "u1")) initial in
  ContractId <$> signed ri.2 = (ContractId <$> signed initial) ++ ["ss,u1"] ∧
  ContractId <$> signed rj.2 = (ContractId <$> signed initial) ++ ["ss,u1"] ∧
  ShardErrChanMap ri.2 = ShardErrChanMap rj.2.
Proof.
  pose proof (contract_id_from_session_id_only demo demo_session 2 7 100 4
                "renter" 800 0 1 "h0" "h1" (env_timed_out "u1") "host1" "host1"
                {[ "WBTT" := 7 ]} initial
                (demo_answers_tokens (env_timed_out "u1") eq_refl eq_refl eq_refl)
                eq_refl) as H.
  cbv zeta in H. destruct H as (Hi & Hj & Heq & _).
  cbv zeta. exact (conj Hi (conj Hj Heq)).
Defined.

(** ** The launch loop *)


Lemma launch_negotiators_out_of_range expectOnePay shardIndexes shardHashes index :
  (index ≤ length shardIndexes < index + length shardHashes)%nat →
  ∃ gs, launch_negotiators expectOnePay shardIndexes index shardHashes
        = (gs, Some (Panics (length shardIndexes) (length shardIndexes))).
Proof.
  revert index. induction shardHashes as [|shardHash rest IH]; intros index Hlen.
  - cbn in Hlen. lia.
  - cbn [launch_negotiators length] in *.
    destruct (shardIndexes !! index) as [i|] eqn:Hi.
    + apply lookup_lt_Some in Hi.
      destruct (IH (S index)) as (gs & ->); [lia|]. by eexists.
    + apply lookup_ge_None in Hi.
      assert (index = length shardIndexes) as -> by lia. by eexists.
Qed.




(** * Further properties of [UploadShard] *)

(** ** What one attempt touches *)

Lemma requests_to_snoc route calls r :
  requests_to route (calls ++ [r])
  = requests_to route calls ++ (if decide (req_route r = route) then [r] else []).
Proof.
  unfold requests_to. by rewrite filter_app.
Qed.

Lemma funnel_refl a : funnel a a.
Proof. exists 0%nat, 0%nat, 0%nat, 0%nat, 0%nat. split_and!; lia. Qed.

Lemma funnel_trans a b c : funnel a b → funnel b c → funnel a c.
Proof.
  intros (da & dd & dt & ds & dp & ? & ? & ? & ? & ? & ? & ? & ?)
         (da' & dd' & dt' & ds' & dp' & ? & ? & ? & ? & ? & ? & ? & ?).
  exists (da + da')%nat, (dd + dd')%nat, (dt + dt')%nat, (ds + ds')%nat,
    (dp + dp')%nat.
  split_and!; lia.
Qed.

(** The case analysis every statement about an attempt goes through: one
    goal per [return] of the closure. *)
Ltac attempt_cases W token env :=
  let host := fresh "host" in
  let out := fresh "out" in
  let mp := fresh "mp" in
  destruct env as [done nvh sup ? ? sg w]; step_attempt;
  destruct done;
    [|destruct nvh as [?|host];
      [|cbn; destruct (peer_Decode W host) as [?|?];
        [|cbn; destruct sup as [?|out];
          [|cbn; destruct (json_Unmarshal W out) as [?|mp];
            [|cbn; destruct (includes_token token mp);
              [cbn; destruct sg as [?|?];
                [|cbn; destruct w as [? [?|]|?|[?|]]]|]]]]]];
  cbn.

Section Footprint.
Context (W : Collaborators).
Context (rss : RenterSession) (price : Z) (token : Address)
        (shardSize storageLength : Z) (renterId : string) (expectOnePay : Z).

Local Abbreviation op i h :=
  (λ env, call (attempt W rss price token shardSize storageLength renterId
                  expectOnePay i h env)).

(** At most one session error event, and none when the result is an error. *)
Lemma attempt_events i h env st :
  ∃ evs, error_events (op i h env st).2 = error_events st ++ evs
         ∧ (length evs ≤ 1)%nat
         ∧ (is_Some (op i h env st).1 → evs = []).
Proof.
  attempt_cases W token env;
    first [ exists []; rewrite app_nil_r; split_and!; [done|cbn; lia|done]
          | eexists [_]; split_and!; [done|cbn; lia|by intros [? [=]]] ].
Qed.

(** Only the entry under the attempt's own contract id can change. *)
Lemma attempt_registry_frame i h env st k :
  k ≠ NewContractID W (SsId rss) (uuid env) →
  ShardErrChanMap (op i h env st).2 !! k = ShardErrChanMap st !! k.
Proof.
  intros Hk. attempt_cases W token env;
    cbn in Hk; rewrite ?lookup_delete_ne, ?lookup_insert_ne by done; done.
Qed.

(** The stages are passed in order. *)
Lemma attempt_funnel i h env st :
  funnel (progress_of st) (progress_of (op i h env st).2).
Proof.
  unfold funnel, progress_of, requests_to, supporttokens_route, init_route.
  attempt_cases W token env;
    rewrite ?filter_app, ?length_app; cbn;
    repeat (case_decide; try done); cbn;
    first [ exists 1%nat, 0%nat, 0%nat, 0%nat, 0%nat; split_and!; lia
          | exists 1%nat, 1%nat, 0%nat, 0%nat, 0%nat; split_and!; lia
          | exists 1%nat, 1%nat, 1%nat, 0%nat, 0%nat; split_and!; lia
          | exists 1%nat, 1%nat, 1%nat, 1%nat, 0%nat; split_and!; lia
          | exists 1%nat, 1%nat, 1%nat, 1%nat, 1%nat; split_and!; lia ].
Qed.
End Footprint.

(** ** What a negotiator touches *)

(** A relation between states that every run of the operation respects is
    respected by the whole retry loop. *)
Lemma Retry_rel {E} (op : E → State → option error * State)
    (R : State → State → Prop) (Q : E → Prop) :
  (∀ st, R st st) → (∀ a b c, R a b → R b c → R a c) →
  (∀ env st, Q env → R st (op env st).2) →
  ∀ script st, Forall (λ x, Q x.1) script → R st (Retry op script st).2.
Proof.
  intros Hrefl Htrans Hop script.
  induction script as [|[env next] rest IH]; intros st Hq; cbn [Retry].
  - apply Hrefl.
  - apply Forall_cons in Hq as [Hq Hrest]. specialize (Hop env st Hq).
    destruct (op env st) as [[e|] st1]; cbn in Hop; [|done].
    destruct next as [d|]; [|done].
    eapply Htrans; [exact Hop|]. by apply IH.
Qed.

Section Negotiator.
Context (W : Collaborators).
Context (rss : RenterSession) (price : Z) (token : Address)
        (shardSize storageLength : Z) (renterId : string) (expectOnePay : Z).

Local Abbreviation op i h :=
  (λ env, call (attempt W rss price token shardSize storageLength renterId
                  expectOnePay i h env)).
Local Abbreviation run i h :=
  (negotiator W rss price token shardSize storageLength renterId expectOnePay i h).

(** The contract an attempt hands to the signer. *)
Lemma attempt_contracts i h env st :
  ∃ ps, signed (op i h env st).2 = signed st ++ ps
        ∧ Forall (λ p, contract_of W rss price shardSize storageLength renterId
                         expectOnePay i h p
                       ∧ ContractId p = NewContractID W (SsId rss) (uuid env)
                       ∧ StartTime p = now env
                       ∧ NextValidHost env = inr (HostPid p)) ps.
Proof.
  attempt_cases W token env;
    first [ by exists []; rewrite app_nil_r
          | eexists [_]; split; [done|];
            apply Forall_singleton; unfold contract_of; cbn; done ].
Qed.

Lemma Retry_events i h script st :
  ∃ evs, error_events (Retry (op i h) script st).2 = error_events st ++ evs
         ∧ (length evs ≤ 1)%nat
         ∧ ((Retry (op i h) script st).1 ≠ Some None → evs = []).
Proof.
  revert st. induction script as [|[env next] rest IH]; intros st; cbn [Retry].
  - exists []. rewrite app_nil_r. split_and!; [done|cbn; lia|done].
  - destruct (attempt_events W rss price token shardSize storageLength renterId
                expectOnePay i h env st) as (evs & Hev & Hlen & Hnone).
    cbv beta in *. revert Hev Hnone.
    destruct (call _ st) as [[e|] st1]; cbn; intros Hev Hnone.
    + rewrite (Hnone (mk_is_Some _ _ eq_refl)), app_nil_r in Hev.
      destruct next as [d|].
      * destruct (IH st1) as (evs' & Hev' & ? & ?). exists evs'.
        by rewrite Hev', Hev.
      * exists []. rewrite app_nil_r. split_and!; [done|cbn; lia|done].
    + exists evs. split_and!; [done|done|]. by intros [].
Qed.
End Negotiator.

Section NegotiatorFacts.
Context (W : Collaborators).
Context (rss : RenterSession) (price : Z) (token : Address)
        (shardSize storageLength : Z) (renterId : string) (expectOnePay : Z).

Local Abbreviation op i h :=
  (λ env, call (attempt W rss price token shardSize storageLength renterId
                  expectOnePay i h env)).
Local Abbreviation again i h :=
  (retried W rss price token shardSize storageLength renterId expectOnePay i h).

Lemma Retry_running_iff i h script st :
  (Retry (op i h) script st).1 = None ↔ Forall (again i h) script.
Proof.
  revert st. induction script as [|[env next] rest IH]; intros st; cbn [Retry].
  - split; [constructor|done].
  - rewrite Forall_cons. unfold retried at 1. cbn [fst snd].
    pose proof (attempt_result W rss price token shardSize storageLength
                  renterId expectOnePay i h env st) as Hr.
    cbv beta in *. revert Hr.
    destruct (call _ st) as [[e|] st1]; cbn; intros <-.
    + destruct next as [d|].
      * rewrite IH. split; [intros ?; split_and!; eauto | by intros [_ ?]].
      * split; [done|]. by intros [[_ []] _].
    + split; [done|]. by intros [[[] _] _].
Qed.

Lemma Retry_attempts_bound i h script st :
  (attempts (Retry (op i h) script st).2 ≤ attempts st + length script)%nat.
Proof.
  revert st. induction script as [|[env next] rest IH]; intros st; cbn [Retry length].
  - cbn. lia.
  - pose proof (attempt_counted W rss price token shardSize storageLength
                  renterId expectOnePay i h env st) as Hc.
    cbv beta in *. revert Hc.
    destruct (call _ st) as [[e|] st1]; cbn [fst snd]; intros Hc; [|cbn; lia].
    destruct next as [d|]; cbn [snd]; [specialize (IH st1)|]; lia.
Qed.
End NegotiatorFacts.

(** X1. Whatever its attempts meet, a negotiator raises at most one session
    error event, and none for as long as it is still retrying. *)
Theorem negotiator_raises_at_most_one_event (W : Collaborators)
    (rss : RenterSession) (price : Z) (token : Address)
    (shardSize storageLength : Z) (renterId : string) (expectOnePay i : Z)
    (h : string) (script : list (AttemptEnv * option Duration)) (st : State) :
  let r := negotiator W rss price token shardSize storageLength renterId
             expectOnePay i h script st in
  ∃ evs, error_events r.2 = error_events st ++ evs
         ∧ (length evs ≤ 1)%nat
         ∧ (r.1 = Running → evs = []).
Proof.
  cbv zeta. unfold negotiator.
  destruct (Retry_events W rss price token shardSize storageLength renterId
              expectOnePay i h script st) as (evs & Hev & Hlen & Hnone).
  cbv beta in *. revert Hev Hnone.
  destruct (Retry _ script st) as [[[e|]|] st']; cbn; intros Hev Hnone.
  - rewrite Hnone, app_nil_r in Hev by done. eexists [_].
    rewrite Hev. split_and!; [reflexivity|cbn; lia|intros; discriminate].
  - exists evs. split_and!; [done|done|intros; discriminate].
  - exists []. rewrite Hnone in Hev by done. split_and!; [done|cbn; lia|done].
Qed.

(** X2. A negotiator is still running at the end of a script exactly when
    every attempt of the script ended in an error and was granted a retry. *)
Theorem negotiator_running_iff_retried (W : Collaborators)
    (rss : RenterSession) (price : Z) (token : Address)
    (shardSize storageLength : Z) (renterId : string) (expectOnePay i : Z)
    (h : string) (script : list (AttemptEnv * option Duration)) (st : State) :
  (negotiator W rss price token shardSize storageLength renterId expectOnePay
     i h script st).1 = Running
  ↔ Forall (retried W rss price token shardSize storageLength renterId
              expectOnePay i h) script.
Proof.
  rewrite <- (Retry_running_iff W rss price token shardSize storageLength
                renterId expectOnePay i h script st).
  unfold negotiator. cbv beta.
  by destruct (Retry _ script st) as [[[e|]|] st'].
Qed.

(** X3. A negotiator changes the registry only under the contract ids its
    attempts mint: every other entry is as it was. *)
Theorem negotiator_registry_frame (W : Collaborators)
    (rss : RenterSession) (price : Z) (token : Address)
    (shardSize storageLength : Z) (renterId : string) (expectOnePay i : Z)
    (h : string) (script : list (AttemptEnv * option Duration)) (st : State)
    (k : string) :
  k ∉ minted W rss script →
  ShardErrChanMap (negotiator W rss price token shardSize storageLength renterId
                     expectOnePay i h script st).2 !! k
  = ShardErrChanMap st !! k.
Proof.
  intros Hk.
  assert (ShardErrChanMap
            (Retry (λ env, call (attempt W rss price token shardSize storageLength
                                   renterId expectOnePay i h env)) script st).2 !! k
          = ShardErrChanMap st !! k) as Hretry.
  { apply (Retry_rel _ (λ a b, ShardErrChanMap b !! k = ShardErrChanMap a !! k)
             (λ env, k ≠ NewContractID W (SsId rss) (uuid env))).
    - done.
    - intros a b c Hab Hbc. by rewrite Hbc.
    - intros env st0 Hne. by apply attempt_registry_frame.
    - apply Forall_forall. intros x Hx ->. apply Hk.
      unfold minted. apply list_elem_of_fmap. by exists x. }
  unfold negotiator. revert Hretry.
  by destruct (Retry _ script st) as [[[e|]|] st'].
Qed.

(** Two timeouts under the ids ["ss,u1"] and ["ss,u2"] leave an entry that
    was registered under ["other"] alone. *)
Lemma negotiator_registry_frame_witness :
  let st := on_registry (λ m, <["other" := {| chan_id := 9; chan_cap := 0 |}]> m)
              initial in
  ShardErrChanMap (negotiator demo demo_session 2 7 100 4 "renter" 800 0 "h0"
                     [(env_timed_out "u1", Some Second);
                      (env_timed_out "u2", None)] st).2 !! "other"
  = ShardErrChanMap st !! "other".
Proof.
  apply (negotiator_registry_frame demo demo_session 2 7 100 4 "renter" 800 0
           "h0" [(env_timed_out "u1", Some Second); (env_timed_out "u2", None)]).
  unfold minted. cbn. rewrite !not_elem_of_cons. split_and!; [done|done|].
  apply not_elem_of_nil.
Defined.

(** X4. Over any script the stages of a negotiator's attempts form a funnel:
    it sends at most as many init requests as it had contracts signed, has at
    most as many contracts signed as it sent supporttokens requests, sends at
    most as many of those as it drew hosts, draws at most one host per
    attempt, waits on one 30-second ticker per init request, and makes at most
    as many attempts as the script has entries. *)
Theorem negotiator_funnel (W : Collaborators)
    (rss : RenterSession) (price : Z) (token : Address)
    (shardSize storageLength : Z) (renterId : string) (expectOnePay i : Z)
    (h : string) (script : list (AttemptEnv * option Duration)) (st : State) :
  let st' := (negotiator W rss price token shardSize storageLength renterId
                expectOnePay i h script st).2 in
  funnel (progress_of st) (progress_of st') ∧
  (attempts st' ≤ attempts st + length script)%nat.
Proof.
  cbv zeta.
  pose proof (Retry_rel
                (λ env, call (attempt W rss price token shardSize storageLength
                                renterId expectOnePay i h env))
                (λ a b, funnel (progress_of a) (progress_of b)) (λ _, True)
                (λ a, funnel_refl _) (λ a b c, funnel_trans _ _ _)
                (λ env st0 _, attempt_funnel W rss price token shardSize
                                storageLength renterId expectOnePay i h env st0)
                script st) as Hf.
  pose proof (Retry_attempts_bound W rss price token shardSize storageLength
                renterId expectOnePay i h script st) as Hb.
  unfold negotiator. cbv beta in *. revert Hf Hb.
  destruct (Retry _ script st) as [[[e|]|] st']; cbn [snd]; intros Hf Hb;
    (split; [apply Hf; by apply Forall_forall | exact Hb]).
Qed.

(** X5. Every contract a negotiator for shard [(i, h)] hands to the signer
    names that shard ([int32(i)], which is [i] when it fits in 32 bits, and
    [h]), the session's file, the size, length, price and per-shard pay of the
    call, and an id minted by one of its attempts. *)
Theorem negotiator_contracts (W : Collaborators)
    (rss : RenterSession) (price : Z) (token : Address)
    (shardSize storageLength : Z) (renterId : string) (expectOnePay i : Z)
    (h : string) (script : list (AttemptEnv * option Duration)) (st : State) :
  let st' := (negotiator W rss price token shardSize storageLength renterId
                expectOnePay i h script st).2 in
  ∃ ps, signed st' = signed st ++ ps
        ∧ Forall (λ p, contract_of W rss price shardSize storageLength renterId
                         expectOnePay i h p
                       ∧ ContractId p ∈ minted W rss script
                       ∧ (- 2 ^ 31 ≤ i < 2 ^ 31 → ShardIndex p = i)) ps.
Proof.
  cbv zeta.
  set (P := λ p, contract_of W rss price shardSize storageLength renterId
                   expectOnePay i h p
                 ∧ ContractId p ∈ minted W rss script
                 ∧ (- 2 ^ 31 ≤ i < 2 ^ 31 → ShardIndex p = i)).
  assert (∃ ps, signed
            (Retry (λ env, call (attempt W rss price token shardSize storageLength
                                   renterId expectOnePay i h env)) script st).2
                = signed st ++ ps ∧ Forall P ps) as Hretry.
  { apply (Retry_rel _ (λ a b, ∃ ps, signed b = signed a ++ ps ∧ Forall P ps)
             (λ env, NewContractID W (SsId rss) (uuid env) ∈ minted W rss script)).
    - intros a. exists []. by rewrite app_nil_r.
    - intros a b c (ps & -> & Hps) (qs & -> & Hqs). exists (ps ++ qs).
      rewrite app_assoc. split; [done|]. by apply Forall_app.
    - intros env st0 Hin.
      destruct (attempt_contracts W rss price token shardSize storageLength
                  renterId expectOnePay i h env st0) as (ps & Hps & Hall).
      exists ps. split; [done|]. eapply Forall_impl; [exact Hall|].
      intros p (Hc & Hid & _). unfold P. split_and!; [done|by rewrite Hid|].
      intros Hi. destruct Hc as (_ & -> & _). unfold int32.
      rewrite Z.mod_small; lia.
    - apply Forall_forall. intros x Hx. unfold minted.
      apply list_elem_of_fmap. by exists x. }
  unfold negotiator. revert Hretry.
  by destruct (Retry _ script st) as [[[e|]|] st'].
Qed.

(** X6. When the signer fails, the attempt returns the signing error: no init
    request has been sent and no ticker started; the host has seen the
    supporttokens request only. *)
Theorem signing_failure_sends_no_push (W : Collaborators)
    (rss : RenterSession) (price : Z) (token : Address)
    (shardSize storageLength : Z) (renterId : string) (expectOnePay i : Z)
    (h : string) (env : AttemptEnv) (host pid : string)
    (mpToken : gmap string Address) (err : error) (st : State) :
  answers_tokens W env host pid mpToken →
  includes_token token mpToken = true →
  sign env = inl err →
  let r := call (attempt W rss price token shardSize storageLength renterId
                   expectOnePay i h env) st in
  r.1 = Some err ∧
  p2p_calls r.2
  = p2p_calls st ++ [{| req_budget := 60 * Second; req_host := pid;
                        req_route := supporttokens_route |}] ∧
  tickers r.2 = tickers st ∧
  stuck_senders r.2 = stuck_senders st ∧
  error_events r.2 = error_events st.
Proof.
  intros (Hd & Hh & Hp & out & Hs & Hj) Hyes Hsign. cbv zeta.
  destruct env as [done nvh sup u t sg w]. cbn in *. subst done nvh sup sg.
  step_attempt. rewrite Hp. cbn. rewrite Hj. cbn. rewrite Hyes. done.
Qed.

(** The concrete signer refuses. *)
Lemma signing_failure_sends_no_push_witness :
  let r := call (attempt demo demo_session 2 7 100 4 "renter" 800 0 "h0"
                   env_sign_failed) initial in
  r.1 = Some "sign failed" ∧
  p2p_calls r.2
  = p2p_calls initial ++ [{| req_budget := 60 * Second; req_host := "host1";
                             req_route := supporttokens_route |}] ∧
  tickers r.2 = tickers initial ∧
  stuck_senders r.2 = stuck_senders initial ∧
  error_events r.2 = error_events initial.
Proof.
  exact (signing_failure_sends_no_push demo demo_session 2 7 100 4 "renter" 800
           0 "h0" env_sign_failed "host1" "host1" {[ "WBTT" := 7 ]}
           "sign failed" initial
           (demo_answers_tokens env_sign_failed eq_refl eq_refl eq_refl)
           eq_refl eq_refl).
Defined.

(** X7. When the supporttokens call fails, or its answer does not parse, the
    attempt returns that error after the one request: it has minted no
    contract id, made no channel, registered and signed nothing, and raised
    no event. *)
Theorem token_check_failure_registers_nothing (W : Collaborators)
    (rss : RenterSession) (price : Z) (token : Address)
    (shardSize storageLength : Z) (renterId : string) (expectOnePay i : Z)
    (h : string) (env : AttemptEnv) (host pid : string) (err : error)
    (st : State) :
  ctx_done env = false → NextValidHost env = inr host →
  peer_Decode W host = inr pid →
  (supporttokens env = inl err
   ∨ ∃ output, supporttokens env = inr output ∧ json_Unmarshal W output = inl err) →
  call (attempt W rss price token shardSize storageLength renterId
          expectOnePay i h env) st
  = (Some err,
     on_p2p_calls
       (λ l, l ++ [{| req_budget := 60 * Second; req_host := pid;
                      req_route := "/storage/upload/supporttokens" |}])
       (on_host_draws S (on_attempts S st))).
Proof.
  intros Hd Hh Hp Hfail.
  destruct env as [done nvh sup u t sg w]. cbn in *. subst done nvh.
  step_attempt. rewrite Hp. cbn.
  destruct Hfail as [->|(out & -> & Hj)]; cbn; [done|]. by rewrite Hj.
Qed.

(** The concrete host is out of reach. *)
Lemma token_check_failure_registers_nothing_witness :
  call (attempt demo demo_session 2 7 100 4 "renter" 800 0 "h0" env_call_failed)
    initial
  = (Some "context deadline exceeded",
     on_p2p_calls
       (λ l, l ++ [{| req_budget := 60 * Second; req_host := "host1";
                      req_route := "/storage/upload/supporttokens" |}])
       (on_host_draws S (on_attempts S initial))).
Proof.
  exact (token_check_failure_registers_nothing demo demo_session 2 7 100 4
           "renter" 800 0 "h0" env_call_failed "host1" "host1"
           "context deadline exceeded" initial eq_refl eq_refl eq_refl
           (or_introl eq_refl)).
Defined.

(** X8. An attempt that receives a value on its channel, under a contract id
    that was not registered before, hands that value to [backoff.Retry] and
    leaves the registry exactly as it found it. *)
Theorem received_attempt_restores_registry (W : Collaborators)
    (rss : RenterSession) (price : Z) (token : Address)
    (shardSize storageLength : Z) (renterId : string) (expectOnePay i : Z)
    (h : string) (env : AttemptEnv) (host pid : string)
    (mpToken : gmap string Address) (guardContractBytes : bytes) (st : State) :
  answers_tokens W env host pid mpToken →
  includes_token token mpToken = true →
  sign env = inr guardContractBytes →
  ShardErrChanMap st !! NewContractID W (SsId rss) (uuid env) = None →
  let r := call (attempt W rss price token shardSize storageLength renterId
                   expectOnePay i h env) st in
  match wait env with
  | AckFirst v _ => r.1 = v ∧ ShardErrChanMap r.2 = ShardErrChanMap st
  | PushErrFirst e => r.1 = Some e ∧ ShardErrChanMap r.2 = ShardErrChanMap st
  | TickFirst _ => ShardErrChanMap r.2 ≠ ShardErrChanMap st
  end.
Proof.
  intros Hans Hyes Hsign Hfresh. cbv zeta.
  pose proof (attempt_after_registration W rss price token shardSize
                storageLength renterId expectOnePay i h env host pid mpToken st
                Hans Hyes) as H.
  cbv zeta in H. rewrite Hsign in H. destruct H as (_ & H & _).
  destruct (wait env) as [v push|e|push]; destruct H as (Hr & Hm & _).
  - by rewrite Hm, delete_insert_id.
  - by rewrite Hm, delete_insert_id.
  - rewrite Hm. intros Heq.
    apply (f_equal (λ m, m !! NewContractID W (SsId rss) (uuid env))) in Heq.
    by rewrite lookup_insert_eq, Hfresh in Heq.
Qed.

(** The concrete host acknowledges; the registry is empty before and after. *)
Lemma received_attempt_restores_registry_witness :
  let r := call (attempt demo demo_session 2 7 100 4 "renter" 800 0 "h0"
                   env_acked) initial in
  r.1 = None ∧ ShardErrChanMap r.2 = ShardErrChanMap initial.
Proof.
  exact (received_attempt_restores_registry demo demo_session 2 7 100 4 "renter"
           800 0 "h0" env_acked "host1" "host1" {[ "WBTT" := 7 ]} [] initial
           (demo_answers_tokens env_acked eq_refl eq_refl eq_refl)
           eq_refl eq_refl eq_refl).
Defined.

(** ** The launch loop, further *)

Lemma launch_negotiators_short expectOnePay shardIndexes shardHashes index :
  (index ≤ length shardIndexes < index + length shardHashes)%nat →
  launch_negotiators expectOnePay shardIndexes index shardHashes
  = (zip_with (Negotiator expectOnePay) (drop index shardIndexes) shardHashes,
     Some (Panics (length shardIndexes) (length shardIndexes))).
Proof.
  revert index. induction shardHashes as [|shardHash rest IH]; intros index Hlen.
  - cbn in Hlen. lia.
  - cbn [launch_negotiators length] in *.
    destruct (shardIndexes !! index) as [i|] eqn:Hi.
    + rewrite (drop_S _ _ _ Hi). apply lookup_lt_Some in Hi.
      by rewrite IH by lia.
    + apply lookup_ge_None in Hi.
      assert (index = length shardIndexes) as -> by lia.
      by rewrite drop_all.
Qed.

Lemma launch_negotiators_only expectOnePay shardIndexes shardHashes index numShards :
  Watcher numShards ∉ (launch_negotiators expectOnePay shardIndexes index shardHashes).1.
Proof.
  revert index. induction shardHashes as [|shardHash rest IH]; intros index;
    cbn [launch_negotiators].
  - apply not_elem_of_nil.
  - destruct (shardIndexes !! index) as [i|]; [|apply not_elem_of_nil].
    specialize (IH (S index)).
    destruct (launch_negotiators _ _ _ rest) as [gs e]. cbn in *.
    rewrite not_elem_of_cons. done.
Qed.

Lemma launch_negotiators_panic expectOnePay shardIndexes shardHashes index e :
  (launch_negotiators expectOnePay shardIndexes index shardHashes).2 = Some e →
  ∃ k n, e = Panics k n.
Proof.
  revert index. induction shardHashes as [|shardHash rest IH]; intros index;
    cbn [launch_negotiators].
  - done.
  - destruct (shardIndexes !! index) as [i|]; [|intros [= <-]; eauto].
    specialize (IH (S index)).
    by destruct (launch_negotiators _ _ _ rest) as [gs e'].
Qed.

(** X9. When the preflight succeeds and [shardIndexes] is shorter than the
    session's shard hashes, [UploadShard] does not return: it starts a
    negotiator for each entry of [shardIndexes], paired with the shard hash at
    the same position, panics on the index that follows, and starts no
    watcher. *)
Theorem short_shardIndexes_panic_point (W : Collaborators) (rss : RenterSession)
    (price : Z) (token : Address) (shardSize storageLength : Z)
    (shardIndexes : list Z) (rate expectOnePay : Z) :
  CurrentRate W token = inr rate →
  TotalPay W shardSize price storageLength rate = inr expectOnePay →
  checkAvailableBalance W
    (mul64 expectOnePay (int64 (Z.of_nat (length (ShardHashes rss))))) token = None →
  (length shardIndexes < length (ShardHashes rss))%nat →
  let o := UploadShard W rss price token shardSize storageLength shardIndexes in
  exit_of o = Panics (length shardIndexes) (length shardIndexes) ∧
  launched o = zip_with (Negotiator expectOnePay) shardIndexes (ShardHashes rss).
Proof.
  intros Hrate Hpay Hbal Hlen. cbv zeta. unfold UploadShard.
  rewrite Hrate, Hpay, Hbal, launch_negotiators_short by (cbn; lia).
  done.
Qed.

(** Two shard hashes, one index. *)
Lemma short_shardIndexes_panic_point_witness :
  let o := UploadShard demo demo_session 2 7 10 4 [5] in
  exit_of o = Panics 1 1 ∧ launched o = [Negotiator 80 5 "h0"].
Proof.
  exact (short_shardIndexes_panic_point demo demo_session 2 7 10 4 [5] 1 80
           eq_refl eq_refl eq_refl (le_n 2)).
Defined.

(** X10. [UploadShard] starts the watcher exactly when it returns [nil], and
    whenever it returns an error it has started no goroutine at all. *)
Theorem watcher_started_iff_returns_nil (W : Collaborators) (rss : RenterSession)
    (price : Z) (token : Address) (shardSize storageLength : Z)
    (shardIndexes : list Z) :
  let o := UploadShard W rss price token shardSize storageLength shardIndexes in
  ((∃ numShards, Watcher numShards ∈ launched o) ↔ exit_of o = Returns None) ∧
  (∀ numShards, Watcher numShards ∈ launched o →
     numShards = Z.of_nat (length (ShardHashes rss))) ∧
  (∀ err, exit_of o = Returns (Some err) → launched o = []).
Proof.
  cbv zeta. unfold UploadShard.
  destruct (CurrentRate W token) as [e|rate]; cbn.
  { split_and!; [|by intros ? ?%elem_of_nil|done].
    split; [by intros [? ?%elem_of_nil]|done]. }
  destruct (TotalPay W shardSize price storageLength rate) as [e|pay]; cbn.
  { split_and!; [|by intros ? ?%elem_of_nil|done].
    split; [by intros [? ?%elem_of_nil]|done]. }
  destruct (checkAvailableBalance W _ token) as [e|]; cbn.
  { split_and!; [|by intros ? ?%elem_of_nil|done].
    split; [by intros [? ?%elem_of_nil]|done]. }
  pose proof (launch_negotiators_only pay shardIndexes (ShardHashes rss) 0) as Hno.
  pose proof (launch_negotiators_panic pay shardIndexes (ShardHashes rss) 0) as Hpanic.
  destruct (launch_negotiators pay shardIndexes 0 (ShardHashes rss))
    as [gs [panic|]]; cbn in *.
  - destruct (Hpanic panic eq_refl) as (a & b & ->).
    split_and!; [|by intros n ?%Hno|done].
    split; [by intros [n ?%Hno]|done].
  - split_and!; [| |done].
    + split; [done|]. intros _. eexists. apply elem_of_app. right.
      apply list_elem_of_singleton. done.
    + intros n [Hn|Hn]%elem_of_app; [by apply Hno in Hn|].
      apply list_elem_of_singleton in Hn. by injection Hn.
Qed.

(** ** The watcher, further *)

Lemma watcher_turn_idle fileSize offlineSigning numShards c st :
  idle numShards c →
  watcher_turn fileSize offlineSigning numShards c st = (Next (), st).
Proof.
  destruct c as [completeNum errorNum [err|] submit|]; cbn [idle]; [done| |done].
  intros [[? [=]]|[Hc He]]. step_watcher.
  rewrite bool_decide_eq_false_2 by done.
  by rewrite bool_decide_eq_false_2 by lia.
Qed.

Lemma watcher_turn_next fileSize offlineSigning numShards c st u st' :
  watcher_turn fileSize offlineSigning numShards c st = (Next u, st') →
  idle numShards c.
Proof.
  destruct c as [completeNum errorNum [err|] submit|]; cbn [idle].
  - intros _. left. eauto.
  - step_watcher. case_bool_decide as Hc; cbn.
    + by destruct submit.
    + case_bool_decide as He; cbn; [done|]. intros _. right. split; [done|lia].
  - done.
Qed.

Lemma watcher_loop_idle_prefix fileSize offlineSigning numShards pre rest st :
  Forall (idle numShards) pre →
  watcher_loop fileSize offlineSigning numShards (pre ++ rest) st
  = watcher_loop fileSize offlineSigning numShards rest st.
Proof.
  induction 1 as [|c pre Hc _ IH]; [done|].
  cbn [app watcher_loop]. by rewrite watcher_turn_idle.
Qed.

(** X11. The watcher passes over any run of cases in which the counter query
    errors, or reports neither all shards complete nor any shard in error:
    they change nothing, and the first case of another kind decides. *)
Theorem watcher_skips_idle_prefix (fileSize : Z) (offlineSigning : bool)
    (numShards : Z) (pre rest : list watcher_case) (st : State) :
  Forall (idle numShards) pre →
  watcher_loop fileSize offlineSigning numShards (pre ++ rest) st
  = watcher_loop fileSize offlineSigning numShards rest st.
Proof.
  induction 1 as [|c pre Hc _ IH]; [done|].
  cbn [app watcher_loop]. by rewrite watcher_turn_idle.
Qed.

(** A failed query, then one shard of three complete, then cancellation. *)
Lemma watcher_skips_idle_prefix_witness :
  watcher_loop 4096 false 3
    ([case_tick 0 0 (Some "datastore: key not found") None; case_tick 1 0 None None]
     ++ [case_done]) initial
  = watcher_loop 4096 false 3 [case_done] initial.
Proof.
  apply watcher_skips_idle_prefix.
  constructor; [left; eauto|].
  constructor; [right; split; [discriminate|lia]|].
  constructor.
Defined.

(** X12. The watcher is still running at the end of a script exactly when
    every case of the script was of that idle kind, and then it has changed
    nothing: it never ends on its own while shards are merely pending. *)
Theorem watcher_running_iff_idle (fileSize : Z) (offlineSigning : bool)
    (numShards : Z) (s : list watcher_case) (st : State) :
  ((watcher_loop fileSize offlineSigning numShards s st).1 = Running
   ↔ Forall (idle numShards) s) ∧
  ((watcher_loop fileSize offlineSigning numShards s st).1 = Running
   ↔ watcher_loop fileSize offlineSigning numShards s st = (Running, st)).
Proof.
  assert ((watcher_loop fileSize offlineSigning numShards s st).1 = Running
          → Forall (idle numShards) s) as Hidle.
  { revert st. induction s as [|c s IH]; intros st; cbn [watcher_loop];
      [constructor|].
    destruct (watcher_turn _ _ _ c st) as [[[]|r] st'] eqn:Hturn; [|done].
    intros Hrun. constructor; [by eapply watcher_turn_next|by eapply IH]. }
  assert (Forall (idle numShards) s
          → watcher_loop fileSize offlineSigning numShards s st = (Running, st))
    as Hskip.
  { intros Hall.
    pose proof (watcher_loop_idle_prefix fileSize offlineSigning numShards s []
                  st Hall) as Heq.
    by rewrite app_nil_r in Heq. }
  split; split; [done| |auto|].
  - intros Hall. by rewrite Hskip.
  - by intros ->.
Qed.

(** ** The preflight, further *)

Lemma int64_mod z : int64 z `mod` 2 ^ 64 = z `mod` 2 ^ 64.
Proof.
  unfold int64. rewrite Zminus_mod_idemp_l. f_equal. lia.
Qed.

(** X13. Whatever the per-shard pay and the number of shards, the amount
    [UploadShard] checks against the balance lies in the [int64] range and
    differs from the exact product by a multiple of [2 ^ 64]. *)
Theorem balance_amount_wraps (W : Collaborators) (rss : RenterSession)
    (price : Z) (token : Address) (shardSize storageLength : Z)
    (shardIndexes : list Z) (amount : Z) (tok : Address) :
  BalanceCheck amount tok
  ∈ preflight (UploadShard W rss price token shardSize storageLength shardIndexes) →
  - 2 ^ 63 ≤ amount < 2 ^ 63 ∧
  ∃ rate expectOnePay,
    CurrentRate W token = inr rate ∧
    TotalPay W shardSize price storageLength rate = inr expectOnePay ∧
    amount `mod` 2 ^ 64
    = (expectOnePay * Z.of_nat (length (ShardHashes rss))) `mod` 2 ^ 64.
Proof.
  unfold UploadShard.
  destruct (CurrentRate W token) as [e|rate] eqn:Hrate; cbn.
  { rewrite list_elem_of_singleton. done. }
  destruct (TotalPay W shardSize price storageLength rate) as [e|pay] eqn:Hpay; cbn.
  { rewrite !elem_of_cons, elem_of_nil. by intros [|[|[]]]. }
  assert (BalanceCheck amount tok
            ∈ [RateLookup token; PayComputation shardSize price storageLength rate;
               BalanceCheck
                 (mul64 pay (int64 (Z.of_nat (length (ShardHashes rss))))) token]
          → amount = mul64 pay (int64 (Z.of_nat (length (ShardHashes rss)))))
    as Hin.
  { rewrite !elem_of_cons, elem_of_nil. by intros [|[|[[=]|[]]]]. }
  intros Hmem.
  assert (amount = mul64 pay (int64 (Z.of_nat (length (ShardHashes rss))))) as ->.
  { revert Hmem. destruct (checkAvailableBalance W _ token); [by apply Hin|].
    destruct (launch_negotiators _ _ _ _) as [gs [panic|]]; by apply Hin. }
  split; [apply int64_range|]. exists rate, pay. split_and!; [done|done|].
  unfold mul64. rewrite int64_mod, <- Zmult_mod_idemp_r, int64_mod.
  by rewrite Zmult_mod_idemp_r.
Qed.

(** Two shards at 800 each. *)
Lemma balance_amount_wraps_witness :
  - 2 ^ 63 ≤ 1600 < 2 ^ 63 ∧
  ∃ rate expectOnePay,
    CurrentRate demo 7 = inr rate ∧
    TotalPay demo 100 2 4 rate = inr expectOnePay ∧
    1600 `mod` 2 ^ 64
    = (expectOnePay * Z.of_nat (length (ShardHashes demo_session))) `mod` 2 ^ 64.
Proof.
  apply (balance_amount_wraps demo demo_session 2 7 100 4 [0; 1] 1600 7).
  vm_compute. do 2 right. left.
Defined.

(** X14. A session without shard hashes has its balance checked against 0,
    starts no negotiator whatever [shardIndexes] holds, and returns [nil]
    with only the watcher started; that watcher passes over the ticks whose
    query fails and, at the first tick whose query succeeds with no shard
    complete, calls [Submit] and ends, raising the error event when [Submit]
    fails, whatever the number of shards in error. *)
Theorem empty_session_is_submitted (W : Collaborators) (rss : RenterSession)
    (price : Z) (token : Address) (shardSize storageLength : Z)
    (offlineSigning : bool) (renterId : string) (fileSize : Z)
    (shardIndexes : list Z) (rate expectOnePay : Z) :
  ShardHashes rss = [] →
  CurrentRate W token = inr rate →
  TotalPay W shardSize price storageLength rate = inr expectOnePay →
  checkAvailableBalance W 0 token = None →
  UploadShard W rss price token shardSize storageLength shardIndexes
  = {| exit_of := Returns None;
       preflight := [RateLookup token;
                     PayComputation shardSize price storageLength rate;
                     BalanceCheck 0 token];
       launched := [Watcher 0] |} ∧
  ∀ pre errorNum submit rest st,
    Forall (idle 0) pre →
    session W rss price token shardSize storageLength offlineSigning renterId
      fileSize shardIndexes
      [WatcherScript (pre ++ case_tick 0 errorNum None submit :: rest)] st
    = (Returns None,
       (verdict_on fileSize offlineSigning (Finalized submit)
          (on_tickers (λ l, l ++ [5 * Second]) st)).2).
Proof.
  intros Hnone Hrate Hpay Hbal.
  assert (UploadShard W rss price token shardSize storageLength shardIndexes
          = {| exit_of := Returns None;
               preflight := [RateLookup token;
                             PayComputation shardSize price storageLength rate;
                             BalanceCheck 0 token];
               launched := [Watcher 0] |}) as Hcall.
  { unfold UploadShard. rewrite Hrate, Hpay, Hnone. cbn [length].
    change (mul64 expectOnePay (int64 (Z.of_nat 0))) with (int64 (expectOnePay * 0)).
    rewrite Z.mul_0_r. change (int64 0) with 0. by rewrite Hbal. }
  split; [done|]. intros pre errorNum submit rest st Hpre.
  unfold session. rewrite Hcall.
  cbn [exit_of launched run_goroutines run_goroutine]. unfold watcher.
  rewrite (watcher_loop_idle_prefix _ _ _ _ _ _ Hpre).
  cbn [watcher_loop]. step_watcher. by destruct submit.
Qed.

(** The concrete world, a session with no shard, stray shard indexes; the
    first query of the watcher fails, the second succeeds, and [Submit]
    fails. *)
Lemma empty_session_is_submitted_witness :
  UploadShard demo {| SsId := "ss"; Hash := "root"; ShardHashes := [] |}
    2 7 100 4 [3; 1]
  = {| exit_of := Returns None;
       preflight := [RateLookup 7; PayComputation 100 2 4 1; BalanceCheck 0 7];
       launched := [Watcher 0] |} ∧
  session demo {| SsId := "ss"; Hash := "root"; ShardHashes := [] |}
    2 7 100 4 false "renter" 4096 [3; 1]
    [WatcherScript ([case_tick 0 0 (Some "datastore: key not found") None]
                    ++ case_tick 0 2 None (Some "submit failed") :: [case_done])]
    initial
  = (Returns None,
     (verdict_on 4096 false (Finalized (Some "submit failed"))
        (on_tickers (λ l, l ++ [5 * Second]) initial)).2).
Proof.
  destruct (empty_session_is_submitted demo
              {| SsId := "ss"; Hash := "root"; ShardHashes := [] |}
              2 7 100 4 false "renter" 4096 [3; 1] 1 800
              eq_refl eq_refl eq_refl eq_refl) as [Hcall Hwatch].
  split; [exact Hcall|]. apply Hwatch.
  constructor; [left; eauto|constructor].
Defined.

(** * Properties of the add command *)

(** ** [PreRun] *)

(** X15. [PreRun] touches no option but [progress].  When [quiet], [quieter]
    or [silent] is on it changes nothing; otherwise it leaves [progress] a
    boolean: the one that was given, or [true] when none was. *)
Theorem PreRun_progress_default (Options : gmap string OptVal) :
  let after := (Add_PreRun Options).1 in
  (Add_PreRun Options).2 = None ∧
  (∀ name, name ≠ progressOptionName → after !! name = Options !! name) ∧
  (if hushed Options then after = Options
   else as_bool (after !! progressOptionName)
        = (match Options !! progressOptionName with
           | Some (OBool b) => b
           | _ => true
           end, true)).
Proof.
  cbv zeta. unfold Add_PreRun, hushed.
  destruct (as_bool (Options !! quietOptionName)).1,
           (as_bool (Options !! quieterOptionName)).1,
           (as_bool (Options !! silentOptionName)).1; cbn [orb fst snd];
    try (split_and!; done).
  destruct (Options !! progressOptionName) as [[b| | | |]|] eqn:Hp; cbn;
    (split_and!;
     [ done
     | intros name Hne; by rewrite ?lookup_insert_ne
     | rewrite ?lookup_insert_eq, ?Hp; done ]).
Qed.

(** [PreRun] is idempotent: run on the options it has left, it changes
    nothing more. *)
Remark PreRun_idempotent (Options : gmap string OptVal) :
  Add_PreRun (Add_PreRun Options).1 = Add_PreRun Options.
Proof.
  unfold Add_PreRun.
  destruct (as_bool (Options !! quietOptionName)).1 eqn:Hq,
           (as_bool (Options !! quieterOptionName)).1 eqn:Hqq,
           (as_bool (Options !! silentOptionName)).1 eqn:Hs; cbn [orb fst snd];
    rewrite ?Hq, ?Hqq, ?Hs; cbn [orb]; try done.
  destruct (as_bool (Options !! progressOptionName)).2 eqn:Hp; cbn [negb fst];
    rewrite ?lookup_insert_ne by done; rewrite ?Hq, ?Hqq, ?Hs; cbn [orb].
  - by rewrite Hp.
  - by rewrite lookup_insert_eq.
Qed.

(** ** [Run]: the options *)

(** X16. With the api and the cid encoder at hand and a known hash function,
    [Run] refuses an explicit [raw-leaves=true] together with a request for
    UnixFS metadata (preserve-mode, preserve-mtime, a non-zero mode or
    mtime).  Otherwise the options it builds start with the hash function,
    end with the placeholder for the events option, and hold a [RawLeaves]
    option exactly when the user gave [raw-leaves], with the user's value: a
    request for metadata adds no [RawLeaves(false)] of its own. *)
Theorem Run_raw_leaves_option (cidVersionOptionName : string)
    (mh_Names : gmap string Z) (strings_ToLower : string → string)
    (Options : gmap string OptVal) (hashFunCode : Z) :
  mh_Names !! strings_ToLower (as_string (Options !! hashOptionName)).1
  = Some hashFunCode →
  let r := Add_Run_opts cidVersionOptionName mh_Names strings_ToLower None None
             Options in
  let '(rawblks, rbset) := as_bool (Options !! rawLeavesOptionName) in
  if wants_metadata Options && (rbset && rawblks)
  then r = inl (rawLeavesOptionName
                +:+ " can't be used with UnixFS metadata like mode or modification time")
  else ∃ opts, r = inr opts
               ∧ opts !! 0%nat = Some (Unixfs_Hash hashFunCode)
               ∧ last opts = Some Unixfs_nil
               ∧ raw_leaves_in opts = (if rbset then [rawblks] else []).
Proof.
  intros Hhash. cbv zeta. unfold Add_Run_opts, wants_metadata. rewrite Hhash.
  destruct (as_int (Options !! cidVersionOptionName)) as [cidVer cidVerSet].
  set (meta := (as_bool (Options !! preserveModeOptionName)).1
               || (as_bool (Options !! preserveMtimeOptionName)).1
               || negb ((as_uint (Options !! modeOptionName)).1 =? 0)
               || negb ((as_int64 (Options !! mtimeOptionName)).1 =? 0)).
  destruct (as_bool (Options !! rawLeavesOptionName)) as [[] []];
    destruct meta; cbn [andb]; try done;
    (eexists; split; [reflexivity|];
     destruct cidVerSet,
       (as_bool (Options !! trickleOptionName)).1,
       (as_bool (Options !! encryptName)).1,
       ((as_uint (Options !! modeOptionName)).1 =? 0),
       ((as_int64 (Options !! mtimeOptionName)).1 =? 0);
     cbn [negb];
     (split_and!;
      [ done
      | by rewrite last_snoc
      | unfold raw_leaves_in; by rewrite !omap_app ])).
Qed.

(** The defaults, [raw-leaves=false] given, and a custom mode. *)
Lemma Run_raw_leaves_option_witness :
  ∃ opts,
    Add_Run_opts "cid-version" {[ "sha2-256" := 18 ]} (λ s, s) None None
      {[ hashOptionName := OString "sha2-256";
         rawLeavesOptionName := OBool false;
         modeOptionName := OUint 420 ]}
    = inr opts
    ∧ opts !! 0%nat = Some (Unixfs_Hash 18)
    ∧ last opts = Some Unixfs_nil
    ∧ raw_leaves_in opts = [false].
Proof.
  exact (Run_raw_leaves_option "cid-version" {[ "sha2-256" := 18 ]} (λ s, s)
           {[ hashOptionName := OString "sha2-256";
              rawLeavesOptionName := OBool false;
              modeOptionName := OUint 420 ]} 18 eq_refl).
Defined.

(** ** [Run]: the loop *)

Lemma int64_congr a b : a `mod` 2 ^ 64 = b `mod` 2 ^ 64 → int64 a = int64 b.
Proof.
  intros H. unfold int64. f_equal.
  by rewrite (Zplus_mod a), (Zplus_mod b), H.
Qed.

Lemma int64_succ a : int64 (int64 a + 1) = int64 (a + 1).
Proof.
  apply int64_congr. by rewrite Zplus_mod, int64_mod, <- Zplus_mod.
Qed.

Ltac step_proc :=
  unfold leave, act, mbind, Proc_bind, mret, Proc_ret; cbn.

Section RunLoop.
Context (enc_Encode : string → string) (path_Join : string → string → string)
        (path_Ext : string → string) (FormatUint_8 : Z → string)
        (fmt_d : Z → string).

Local Abbreviation on_event' := (on_event enc_Encode path_Join FormatUint_8).
Local Abbreviation file_meta' := (file_meta path_Ext fmt_d).
Local Abbreviation add_entry' :=
  (add_entry enc_Encode path_Join path_Ext FormatUint_8 fmt_d).
Local Abbreviation translate' := (translate enc_Encode path_Join FormatUint_8).

Local Abbreviation events_of' := (events_of enc_Encode path_Join FormatUint_8).

(** The loop over the events of one entry: it goes on only when every value
    was an event that [res.Emit] took, having emitted them all in order, and
    it leaves with an error otherwise. *)
Lemma on_events_spec e evs st :
  match for_each (on_event' e) evs st with
  | (Go_on _, st') =>
      Forall (λ ev, ∃ output, ev = (is_AddEvent output, None)) evs
      ∧ emitted st' = emitted st ++ events_of' e evs
      ∧ dialled st' = dialled st ∧ filed st' = filed st
      ∧ printed st' = printed st ∧ added st' = added st
  | (Leave r, st') =>
      (∃ err, r = Returns (Some err)) ∧ dialled st' = dialled st
  end.
Proof.
  revert st. induction evs as [|[[output|] [err|]] evs IH]; intros st;
    cbn [for_each]; step_proc; try by eauto.
  - split_and!; [constructor|by rewrite app_nil_r|done..].
  - specialize (IH {| emitted := emitted st ++ [translate' e output];
                      dialled := dialled st; closed := closed st;
                      filed := filed st; printed := printed st;
                      added := added st |}).
    unfold events_of in *. cbn [omap list_omap fst] in *.
    destruct (for_each _ evs _) as [[u|r] st']; cbn in IH |- *.
    + destruct IH as (Hall & Hem & ? & ? & ? & ?).
      split_and!; [constructor; eauto|by rewrite Hem, <- app_assoc|done..].
    + done.
Qed.

(** The blockchain block never ends the function with [nil], and touches
    neither the events emitted nor the count of files added. *)
Lemma file_meta_spec e cid st :
  match file_meta' e cid st with
  | (Go_on _, st') => emitted st' = emitted st ∧ added st' = added st
  | (Leave r, st') => r ≠ Returns None
  end.
Proof.
  unfold file_meta. step_proc.
  destruct (GetConfig e) as [?|cfg]; cbn; [done|].
  destruct (Dial e); cbn; [done|].
  destruct (GetChainConfig e); cbn; [|done].
  destruct (NewFileMeta e); cbn; [done|].
  destruct (DecodeString e) as [?|key]; cbn; [done|].
  case_bool_decide; cbn; [done|].
  destruct (ToECDSA e); cbn; [done|].
  destruct (PendingNonceAt e); cbn; [done|].
  destruct (NewKeyedTransactorWithChainID e); cbn; [done|].
  destruct (AddFileMeta e); cbn; done.
Qed.

Lemma add_entry_spec uploadToBlockchain e st :
  match add_entry' uploadToBlockchain e st with
  | (Go_on _, st') =>
      added_cleanly e
      ∧ emitted st' = emitted st ++ events_of' e (entry_events e)
      ∧ added st' = int64 (added st + 1)
  | (Leave r, st') => r ≠ Returns None
  end.
Proof.
  unfold add_entry, added_cleanly.
  pose proof (on_events_spec e (entry_events e) st) as Hev.
  unfold mbind at 1, Proc_bind at 1.
  destruct (for_each _ (entry_events e) st) as [[u|r] st1].
  - destruct Hev as (Hall & Hem & _ & _ & _ & Hadd). step_proc.
    destruct (entry_Add e) as [err|cid]; cbn; [done|].
    destruct uploadToBlockchain.
    + match goal with |- context [file_meta' e cid ?s] =>
        pose proof (file_meta_spec e cid s) as Hm;
        destruct (file_meta' e cid s) as [[u'|r] st2] end; [|done].
      cbn in Hm. destruct Hm as [-> ->]. rewrite Hadd. eauto.
    + cbn. rewrite Hadd. eauto.
  - destruct Hev as [[err ->] _]. done.
Qed.

Lemma add_entries_spec uploadToBlockchain entries st a :
  added st = int64 a →
  match for_each (add_entry' uploadToBlockchain) entries st with
  | (Go_on _, st') =>
      Forall added_cleanly entries
      ∧ emitted st'
        = emitted st ++ concat (translations enc_Encode path_Join FormatUint_8
                                  <$> entries)
      ∧ added st' = int64 (a + Z.of_nat (length entries))
  | (Leave r, st') => r ≠ Returns None
  end.
Proof.
  revert st a. induction entries as [|e entries IH]; intros st a Ha;
    cbn [for_each].
  - cbn. split_and!; [constructor|by rewrite app_nil_r|by rewrite Z.add_0_r].
  - pose proof (add_entry_spec uploadToBlockchain e st) as He.
    unfold mbind, Proc_bind.
    destruct (add_entry' uploadToBlockchain e st) as [[u|r] st1]; [|done].
    destruct He as (Hclean & Hem & Hadd).
    rewrite Ha, int64_succ in Hadd.
    specialize (IH st1 (a + 1) Hadd).
    destruct (for_each _ entries st1) as [[u'|r] st2]; [|done].
    destruct IH as (Hall & Hem' & Hadd').
    split_and!; [by constructor| |].
    + rewrite Hem', Hem. cbn. by rewrite <- !app_assoc.
    + rewrite Hadd'. f_equal. cbn [length]. lia.
Qed.
End RunLoop.

Section RunLoopFacts.
Context (enc_Encode : string → string) (path_Join : string → string → string)
        (path_Ext : string → string) (FormatUint_8 : Z → string)
        (fmt_d : Z → string).

Lemma on_events_go e evs st :
  Forall (λ ev, ∃ output, ev = (is_AddEvent output, None)) evs →
  ∃ st', for_each (on_event enc_Encode path_Join FormatUint_8 e) evs st
         = (Go_on (), st').
Proof.
  intros Hall. revert st. induction Hall as [|ev evs [output ->] _ IH]; intros st;
    cbn [for_each]; step_proc; [eauto|]. apply IH.
Qed.
End RunLoopFacts.

(** X17. [Run] returns [nil] only after every entry the iterator yielded was
    added cleanly (each value sent by the adder was an [AddEvent] and was
    emitted, and [Add] returned no error), there was at least one entry, and
    the iterator reported no error; what it has emitted then is, entry after
    entry and in order, the translation of every event. *)
Theorem Run_returns_nil_after_all_added (enc_Encode : string → string)
    (path_Join : string → string → string) (path_Ext : string → string)
    (FormatUint_8 : Z → string) (fmt_d : Z → string)
    (uploadToBlockchain : bool) (entries : list EntryScript)
    (addit_Err : option error) (st : AddState) :
  Add_Run_loop enc_Encode path_Join path_Ext FormatUint_8 fmt_d
    uploadToBlockchain entries addit_Err = (Returns None, st) →
  entries ≠ [] ∧ addit_Err = None ∧ Forall added_cleanly entries ∧
  emitted st = concat (translations enc_Encode path_Join FormatUint_8 <$> entries).
Proof.
  unfold Add_Run_loop.
  pose proof (add_entries_spec enc_Encode path_Join path_Ext FormatUint_8 fmt_d
                uploadToBlockchain entries AddState0 0 eq_refl) as Hloop.
  unfold mbind at 1, Proc_bind at 1.
  destruct (for_each _ entries AddState0) as [[u|r] st1].
  - destruct Hloop as (Hall & Hem & Hadd).
    destruct addit_Err as [err|]; step_proc; [by intros [= ]|].
    unfold Add_Run_end. case_bool_decide as Hzero; [by intros [=]|].
    intros [= <-]. cbn. split_and!; [|done|done|done].
    intros ->. by rewrite Hadd in Hzero.
  - intros [= -> _]. done.
Qed.

(** One file, two events of the adder. *)
Lemma Run_returns_nil_after_all_added_witness :
  let e := {| entry_Name := "a.txt"; entry_dir := false;
              entry_events :=
                [(is_AddEvent {| core_Name := "a.txt"; core_Path := None;
                                 core_Bytes := 5; core_Size := "";
                                 core_Mode := 0; core_Mtime := 0 |}, None);
                 (is_AddEvent {| core_Name := "a.txt"; core_Path := Some "Qm1";
                                 core_Bytes := 0; core_Size := "5";
                                 core_Mode := 420; core_Mtime := 0 |}, None)];
              entry_Add := inr "Qm1"; entry_Size := 5;
              GetConfig := inl "no config"; Dial := None;
              GetChainConfig := None; NewFileMeta := None;
              DecodeString := inr []; ToECDSA := None;
              PendingNonceAt := inr 0; NewKeyedTransactorWithChainID := None;
              AddFileMeta := inl "no chain" |} in
  [e] ≠ [] ∧ (None : option error) = None ∧ Forall added_cleanly [e] ∧
  [{| ae_Name := "a.txt"; ae_Hash := ""; ae_Bytes := 5; ae_Size := "";
      ae_Mode := ""; ae_Mtime := 0 |};
   {| ae_Name := "a.txt"; ae_Hash := "Qm1"; ae_Bytes := 0; ae_Size := "5";
      ae_Mode := "0644"; ae_Mtime := 0 |}]
  = concat (translations (λ cid, cid) (λ a b, a +:+ "/" +:+ b) (λ _, "644")
              <$> [e]).
Proof.
  intros e.
  exact (Run_returns_nil_after_all_added (λ cid, cid) (λ a b, a +:+ "/" +:+ b)
           (λ _, "") (λ _, "644") (λ _, "1") false [e] None _ eq_refl).
Defined.

(** X18. With [to-blockchain] on, a private key that decodes to fewer than 4
    bytes makes [Run] panic on [pkbytesOri[4:]]: by then the entry has been
    added and its events emitted, and a client has been dialled, which the
    deferred [Close] closes; nothing has been filed on the chain. *)
Theorem short_private_key_panics (enc_Encode : string → string)
    (path_Join : string → string → string) (path_Ext : string → string)
    (FormatUint_8 : Z → string) (fmt_d : Z → string)
    (e : EntryScript) (rest : list EntryScript) (addit_Err : option error)
    (cfg : Config) (contractAddress : string) (pkbytesOri : bytes) :
  added_cleanly e →
  GetConfig e = inr cfg → Dial e = None →
  GetChainConfig e = Some contractAddress → NewFileMeta e = None →
  DecodeString e = inr pkbytesOri → (length pkbytesOri < 4)%nat →
  let r := Add_Run_loop enc_Encode path_Join path_Ext FormatUint_8 fmt_d true
             (e :: rest) addit_Err in
  r.1 = Panics 4 (length pkbytesOri) ∧
  emitted r.2 = translations enc_Encode path_Join FormatUint_8 e ∧
  added r.2 = 1 ∧
  dialled r.2 = [Endpoint cfg] ∧ closed r.2 = [Endpoint cfg] ∧
  filed r.2 = [].
Proof.
  intros [Hall [cid Hadd]] Hcfg Hdial Hchain Hmeta Hkey Hshort. cbv zeta.
  unfold Add_Run_loop. cbn [for_each]. unfold add_entry.
  destruct (on_events_go enc_Encode path_Join FormatUint_8 e (entry_events e)
              AddState0 Hall) as [st1 Hgo].
  pose proof (on_events_spec enc_Encode path_Join FormatUint_8 e
                (entry_events e) AddState0) as Hspec.
  rewrite Hgo in Hspec. destruct Hspec as (_ & Hem & Hd & Hf & _ & Ha).
  unfold mbind, Proc_bind. rewrite Hgo. step_proc. rewrite Hadd. cbn.
  unfold file_meta. step_proc.
  rewrite Hcfg. cbn. rewrite Hdial. cbn. rewrite Hchain. cbn.
  rewrite Hmeta. cbn. rewrite Hkey. cbn.
  rewrite bool_decide_eq_true_2 by done. cbn.
  rewrite Hem, Hd, Hf, Ha. done.
Qed.

(** The key decodes to two bytes. *)
Lemma short_private_key_panics_witness :
  let r := Add_Run_loop (λ cid, cid) (λ a b, a +:+ "/" +:+ b) (λ _, ".txt")
             (λ _, "644") (λ _, "199") true
             (demo_entry [Byte.x00; Byte.x01] :: [demo_entry []]) None in
  r.1 = Panics 4 2 ∧
  emitted r.2 = translations (λ cid, cid) (λ a b, a +:+ "/" +:+ b) (λ _, "644")
                  (demo_entry [Byte.x00; Byte.x01]) ∧
  added r.2 = 1 ∧
  dialled r.2 = ["https://rpc"] ∧ closed r.2 = ["https://rpc"] ∧
  filed r.2 = [].
Proof.
  refine (short_private_key_panics (λ cid, cid) (λ a b, a +:+ "/" +:+ b)
            (λ _, ".txt") (λ _, "644") (λ _, "199")
            (demo_entry [Byte.x00; Byte.x01]) [demo_entry []] None _ "0xmeta"
            [Byte.x00; Byte.x01] _ eq_refl eq_refl eq_refl eq_refl eq_refl _).
  - split; [|by exists "Qm1"]. repeat constructor. eauto.
  - cbn. lia.
Defined.

(** ** [PostRun]: the size goroutine *)

Lemma encrypted_block s :
  0 ≤ s < 2 ^ 57 →
  mul64 (add64 (div64 s 16) 1) 32 = (s `div` 16 + 1) * 32
  ∧ 2 * s < (s `div` 16 + 1) * 32 ≤ 2 * s + 32.
Proof.
  intros Hs.
  assert (0 ≤ s `div` 16 ≤ s) as Hq.
  { split; [apply Z.div_pos; lia|]. apply Z.div_le_upper_bound; lia. }
  pose proof (Z.div_mod s 16 ltac:(lia)) as Hdm.
  pose proof (Z.mod_pos_bound s 16 ltac:(lia)) as Hm.
  unfold mul64, add64, div64. rewrite Z.quot_div_nonneg by lia.
  rewrite (int64_id (s `div` 16)) by lia.
  rewrite (int64_id (s `div` 16 + 1)) by lia.
  rewrite int64_id by lia. split; [done|lia].
Qed.

Lemma encrypted_sizes_bounds sizes : ∀ acc room k t,
  Forall (λ s, 0 ≤ s) sizes → 0 ≤ acc →
  acc + 2 * total sizes + 32 * Z.of_nat (length sizes) < 2 ^ 57 →
  ((encrypted_sizes acc (inr <$> sizes) room).1
   ++ option_list (encrypted_sizes acc (inr <$> sizes) room).2) !! k = Some t →
  acc + 2 * total (take (S k) sizes) < t
  ≤ acc + 2 * total (take (S k) sizes) + 32 * (Z.of_nat k + 1).
Proof.
  induction sizes as [|s sizes IH]; intros acc room k t Hpos Hacc Hsmall Hk;
    [done|].
  apply Forall_cons in Hpos as [Hs Hpos].
  assert (0 ≤ total sizes) as Htot.
  { clear -Hpos. unfold total. induction Hpos; cbn; lia. }
  cbn [total foldr length] in Hsmall. fold (total sizes) in Hsmall.
  destruct (encrypted_block s) as [Heq Hb]; [lia|].
  cbn [fmap list_fmap encrypted_sizes] in Hk. rewrite Heq in Hk.
  unfold add64 in Hk. rewrite int64_id in Hk by lia.
  destruct room as [|room].
  - destruct k as [|[|k]]; [|done..]. injection Hk as <-.
    cbn. rewrite take_0. cbn. lia.
  - specialize (IH (acc + (s `div` 16 + 1) * 32) room).
    destruct (encrypted_sizes _ (inr <$> sizes) room) as [done stuck].
    destruct k as [|k]; cbn in Hk.
    + injection Hk as <-. cbn. rewrite take_0. cbn. lia.
    + apply IH in Hk; [|done|lia|lia].
      cbn [take total foldr]. fold (total (take (S k) sizes)). lia.
Qed.

Lemma encrypted_sizes_room (sizes : list Z) : ∀ acc room,
  length (encrypted_sizes acc (inr <$> sizes) room).1
  = (length sizes `min` room)%nat ∧
  ((encrypted_sizes acc (inr <$> sizes) room).2 = None
   ↔ (length sizes ≤ room)%nat).
Proof.
  induction sizes as [|s sizes IH]; intros acc room; [cbn; split; [done|]; split; [lia|done]|].
  cbn [fmap list_fmap encrypted_sizes length]. destruct room as [|room].
  - cbn. split; [done|]. split; [done|lia].
  - specialize (IH (add64 acc (mul64 (add64 (div64 s 16) 1) 32)) room).
    destruct (encrypted_sizes _ (inr <$> sizes) room) as [done stuck].
    cbn in *. destruct IH as [-> ->]. split; [done|lia].
Qed.

(** X19. With [encrypt] on, the totals the size goroutine offers on
    [sizeChan] estimate twice the plain size: for entries of non-negative
    sizes (far from the [int64] limit), the total offered after the [k+1]
    first entries exceeds twice their summed size by more than 0 and at most
    [32 (k+1)].  The channel has room for one value: the goroutine gets one
    total through per entry only as far as the progress bar has taken all but
    one of those before, and it returns exactly when that covers every entry
    (else it stays in a send for ever). *)
Theorem encrypted_size_estimate (Options : gmap string OptVal) (sizes : list Z)
    (Files_Size : error + Z) (receives : nat) :
  Options !! encryptName = Some (OBool true) →
  Forall (λ s, 0 ≤ s) sizes →
  2 * total sizes + 32 * Z.of_nat (length sizes) < 2 ^ 57 →
  let e := size_goroutine Options (inr <$> sizes) Files_Size receives in
  length (taken e) = (length sizes `min` S receives)%nat ∧
  (e = sent (taken e) ↔ (length sizes ≤ S receives)%nat) ∧
  (length (offered e) = length sizes `min` S (S receives))%nat ∧
  ∀ k t, offered e !! k = Some t →
    2 * total (take (S k) sizes) < t
    ≤ 2 * total (take (S k) sizes) + 32 * (Z.of_nat k + 1).
Proof.
  intros Henc Hpos Hsmall. cbv zeta. unfold size_goroutine. rewrite Henc.
  pose proof (encrypted_sizes_room sizes 0 (S receives)) as [Hlen Hnone].
  pose proof (λ k t, encrypted_sizes_bounds sizes 0 (S receives) k t Hpos
                       (Z.le_refl 0) Hsmall) as Hbound.
  destruct (encrypted_sizes 0 (inr <$> sizes) (S receives)) as [done [size|]];
    cbn [fst snd taken offered option_list] in *.
  - split_and!; [done| | |done].
    + split; [done|]. intros Hle. by apply Hnone in Hle.
    + rewrite length_app, Hlen. cbn.
      assert (¬ (length sizes ≤ S receives)%nat) by (by intros ?%Hnone). lia.
  - rewrite app_nil_r in Hbound. split_and!; [done| | |done].
    + split; [intros _; by apply Hnone|done].
    + rewrite Hlen. assert (length sizes ≤ S receives)%nat by (by apply Hnone).
      lia.
Qed.

(** Files of 100 and 16 bytes and a progress bar that takes no value: 224
    gets into the channel, 288 does not. *)
Lemma encrypted_size_estimate_witness :
  let e := size_goroutine encrypting (inr <$> [100; 16]) (inr 116) 0 in
  length (taken e) = (length [100; 16] `min` 1)%nat ∧
  (e = sent (taken e) ↔ (length [100; 16] ≤ 1)%nat) ∧
  (length (offered e) = length [100; 16] `min` 2)%nat ∧
  ∀ k t, offered e !! k = Some t →
    2 * total (take (S k) [100; 16]) < t
    ≤ 2 * total (take (S k) [100; 16]) + 32 * (Z.of_nat k + 1).
Proof.
  apply (encrypted_size_estimate encrypting [100; 16] (inr 116) 0 eq_refl).
  - repeat constructor; lia.
  - cbn. lia.
Defined.

(** X20. A [Size] that fails ends the size goroutine: whatever entries
    follow and whatever the progress bar takes from [sizeChan], nothing more
    is sent or offered. *)
Theorem size_error_ends_estimates (Options : gmap string OptVal)
    (pre post : list (error + Z)) (err : error) (Files_Size : error + Z)
    (receives : nat) :
  Options !! encryptName = Some (OBool true) →
  size_goroutine Options (pre ++ inl err :: post) Files_Size receives
  = size_goroutine Options pre Files_Size receives.
Proof.
  intros Henc. unfold size_goroutine. rewrite Henc.
  assert (∀ acc room, encrypted_sizes acc (pre ++ inl err :: post) room
                      = encrypted_sizes acc pre room) as ->; [|done].
  induction pre as [|[e|s] pre IH]; intros acc room; cbn; [done..|].
  destruct room as [|room]; [|by rewrite IH].
  (* the goroutine is in a send that never completes either way *)
  done.
Qed.

(** One file measured, the second not. *)
Lemma size_error_ends_estimates_witness :
  size_goroutine encrypting ([inr 100] ++ inl "stat failed" :: [inr 16]) (inr 116) 0
  = size_goroutine encrypting [inr 100] (inr 116) 0.
Proof.
  exact (size_error_ends_estimates encrypting [inr 100] [inr 16] "stat failed"
           (inr 116) 0 eq_refl).
Defined.

(** ** [PostRun]: the progress bar *)

Lemma int64_resync a b : int64 (a + int64 (int64 b - a)) = int64 b.
Proof.
  apply int64_congr.
  rewrite <- Zplus_mod_idemp_r, int64_mod, Zplus_mod_idemp_r.
  replace (a + (int64 b - a)) with (int64 b) by lia. apply int64_mod.
Qed.

Lemma bar_turn_in_step quiet quieter progress c st :
  in_step st → in_step (bar_turn quiet quieter progress c st).2.
Proof.
  intros [Ht Hc]. destruct c as [output| |size|]; cbn [bar_turn].
  - case_bool_decide.
    + destruct quieter; [done|]. by destruct progress, quiet.
    + destruct progress; [|done]. cbn [negb snd]. unfold in_step, account. cbn.
      rewrite Ht. split; [done|]. unfold add64. apply int64_resync.
  - by destruct quieter.
  - by destruct progress.
  - done.
Qed.

Lemma bar_finish_in_step progress st : in_step st → in_step (bar_finish progress st).
Proof.
  intros Hin. unfold bar_finish.
  by destruct (progress && (Total (bar st) =? 0) && negb (current (bar st) =? 0)).
Qed.

Lemma progressBar_loop_in_step quiet quieter progress script st :
  in_step st → in_step (progressBar_loop quiet quieter progress script st).2.
Proof.
  revert st. induction script as [|c script IH]; intros st Hin;
    cbn [progressBar_loop]; [done|].
  pose proof (bar_turn_in_step quiet quieter progress c st Hin) as Hturn.
  destruct (bar_turn quiet quieter progress c st) as [[] st']; cbn in Hturn.
  - by apply IH.
  - by apply bar_finish_in_step.
  - done.
Qed.

(** X21. Whatever events, sizes and cancellations the progress bar goroutine
    meets, the bar's position is what the closure recorded as
    [totalProgress], and it is the bytes of the files already done plus the
    bytes reported for the file in hand (in [int64] arithmetic). *)
Theorem progress_position (Options : gmap string OptVal) (script : list bar_case) :
  let st := (progressBar Options script).2 in
  totalProgress st = current (bar st) ∧
  current (bar st) = int64 (prevFiles st + lastBytes st).
Proof.
  cbv zeta. unfold progressBar. apply progressBar_loop_in_step. by split.
Qed.

(** With equal output so far and the same last hash, the loop writes the same
    to stdout whether [progress] is on or off, and ends alike. *)
Lemma progressBar_loop_stdout quiet quieter script st1 st2 :
  stdout st1 = stdout st2 → lastHash st1 = lastHash st2 →
  (progressBar_loop quiet quieter true script st1).1
  = (progressBar_loop quiet quieter false script st2).1
  ∧ stdout (progressBar_loop quiet quieter true script st1).2
    = stdout (progressBar_loop quiet quieter false script st2).2.
Proof.
  revert st1 st2. induction script as [|c script IH]; intros st1 st2 Hout Hhash;
    cbn [progressBar_loop]; [done|].
  destruct c as [output| |size|]; cbn [bar_turn].
  - case_bool_decide.
    + destruct quieter, quiet; cbn; apply IH; cbn; congruence.
    + cbn. by apply IH.
  - unfold bar_finish. destruct quieter; cbn [andb fst snd];
      match goal with |- context [if ?b then _ else _] => destruct b end; cbn;
      (split; congruence).
  - by apply IH.
  - done.
Qed.

Lemma progressBar_loop_stderr quiet quieter script st :
  stderr (progressBar_loop quiet quieter false script st).2 = stderr st.
Proof.
  revert st. induction script as [|c script IH]; intros st;
    cbn [progressBar_loop]; [done|].
  destruct c as [output| |size|]; cbn [bar_turn].
  - case_bool_decide.
    + destruct quieter, quiet; cbn; by rewrite IH.
    + cbn. by rewrite IH.
  - by destruct quieter.
  - cbn. by rewrite IH.
  - done.
Qed.

(** X22. The [progress] option changes nothing of what the progress bar
    goroutine writes to stdout, nor when it ends; and with [progress] off it
    writes nothing to stderr. *)
Theorem progress_leaves_stdout_alone (quiet quieter : bool)
    (script : list bar_case) :
  let on := progressBar_loop quiet quieter true script BarState0 in
  let off := progressBar_loop quiet quieter false script BarState0 in
  on.1 = off.1 ∧ stdout on.2 = stdout off.2 ∧ stderr off.2 = [].
Proof.
  cbv zeta.
  destruct (progressBar_loop_stdout quiet quieter script BarState0 BarState0
              eq_refl eq_refl) as [Hend Hout].
  split_and!; [done|done|]. apply progressBar_loop_stderr.
Qed.

Lemma progressBar_loop_quieter quiet progress pre rest st :
  Forall goes_on pre →
  progressBar_loop quiet true progress pre st
  = (Running, (progressBar_loop quiet true progress pre st).2)
  ∧ stdout (progressBar_loop quiet true progress pre st).2 = stdout st
  ∧ (progressBar_loop quiet true progress (pre ++ got_closed :: rest) st).1
    = Finished
  ∧ stdout (progressBar_loop quiet true progress (pre ++ got_closed :: rest) st).2
    = stdout st ++ [last_hash (lastHash st) pre +:+ newline].
Proof.
  intros Hpre. revert st.
  induction Hpre as [|c pre Hc _ IH]; intros st.
  - cbn. unfold bar_finish.
    by destruct (progress && _ && _).
  - destruct c as [output| |size|]; try done;
      cbn [app progressBar_loop bar_turn last_hash].
    + case_bool_decide.
      * apply (IH (set_lastHash (ae_Hash output) st)).
      * destruct progress; cbn [negb]; [|apply IH].
        apply (IH (bar_Update (account output st))).
    + destruct progress; [|apply IH]. apply (IH (bar_show size st)).
Qed.

(** X23. With [quieter] on, the progress bar goroutine writes nothing to
    stdout while events and sizes come in, and when the channel of events is
    closed it writes one line: the hash of the last event that had one. *)
Theorem quieter_prints_last_hash (Options : gmap string OptVal)
    (pre rest : list bar_case) :
  (as_bool (Options !! quieterOptionName)).1 = true →
  Forall goes_on pre →
  progressBar Options pre = (Running, (progressBar Options pre).2) ∧
  stdout (progressBar Options pre).2 = [] ∧
  (progressBar Options (pre ++ got_closed :: rest)).1 = Finished ∧
  stdout (progressBar Options (pre ++ got_closed :: rest)).2
  = [last_hash "" pre +:+ newline].
Proof.
  intros Hq Hpre. unfold progressBar. rewrite Hq.
  apply (progressBar_loop_quieter _ _ pre rest BarState0 Hpre).
Qed.

(** Events with the hashes Qm1 and Qm2, a size in between. *)
Lemma quieter_prints_last_hash_witness :
  let ev h := got_out {| ae_Name := "a.txt"; ae_Hash := h; ae_Bytes := 0;
                         ae_Size := "5"; ae_Mode := ""; ae_Mtime := 0 |} in
  progressBar hushing [ev "Qm1"; got_size 10; ev "Qm2"]
  = (Running, (progressBar hushing [ev "Qm1"; got_size 10; ev "Qm2"]).2) ∧
  stdout (progressBar hushing [ev "Qm1"; got_size 10; ev "Qm2"]).2 = [] ∧
  (progressBar hushing ([ev "Qm1"; got_size 10; ev "Qm2"] ++ got_closed :: [])).1
  = Finished ∧
  stdout (progressBar hushing
            ([ev "Qm1"; got_size 10; ev "Qm2"] ++ got_closed :: [])).2
  = [last_hash "" [ev "Qm1"; got_size 10; ev "Qm2"] +:+ newline].
Proof.
  intros ev.
  apply (quieter_prints_last_hash hushing [ev "Qm1"; got_size 10; ev "Qm2"] []
           eq_refl).
  repeat constructor.
Defined.

(** * Properties of the name resolve command *)

Lemma prefix_btns name : String.prefix "/btns/" ("/btns/" +:+ name) = true.
Proof. cbn. by destruct name. Qed.

(** X24. Whenever [Run] asks for a resolution, the name it asks for starts
    with ["/btns/"]: it is the first argument (or the node's own id when
    there is none) as given when that already starts so, and with ["/btns/"]
    put in front otherwise. *)
Theorem resolve_name_is_prefixed (time_ParseDuration : string → error + Duration)
    (Options : gmap string OptVal) (Arguments : list string) (env : IpnsEnv)
    (stream : bool) (name : string) (opts : list NameResolveOption) :
  requested (Ipns_Run time_ParseDuration Options Arguments env)
  = Some (stream, name, opts) →
  String.prefix "/btns/" name = true ∧
  ∃ given, match Arguments with
           | [] => Key_Self env = inr given
           | arg :: _ => given = arg
           end
           ∧ name = (if String.prefix "/btns/" given then given
                     else "/btns/" +:+ given).
Proof.
  unfold Ipns_Run.
  destruct (ipns_GetApi env); [done|].
  set (chosen := match Arguments with [] => Key_Self env | n :: _ => inr n end).
  assert (∀ given, chosen = inr given →
            match Arguments with
            | [] => Key_Self env = inr given
            | arg :: _ => given = arg
            end) as Hchosen.
  { intros given. unfold chosen. destruct Arguments; [done|]. by intros [= ->]. }
  destruct chosen as [err|given]; [done|]. specialize (Hchosen given eq_refl).
  destruct (as_uint _) as [rc rcok]. destruct (as_string _) as [dhtt dhttok].
  assert (∀ o, requested o = Some (stream, name, opts) →
               (∃ st op, requested o
                         = Some (st, (if negb (String.prefix "/btns/" given)
                                      then "/btns/" +:+ given else given), op)) →
               String.prefix "/btns/" name = true ∧
               ∃ given0, match Arguments with
                         | [] => Key_Self env = inr given0
                         | arg :: _ => given0 = arg
                         end
                         ∧ name = (if String.prefix "/btns/" given0 then given0
                                   else "/btns/" +:+ given0)) as Hdone.
  { intros o Hreq (st & op & Hname). rewrite Hreq in Hname.
    injection Hname as _ -> _.
    destruct (String.prefix "/btns/" given) eqn:Hp; cbn [negb].
    - split; [done|]. exists given. by rewrite Hp.
    - split; [apply prefix_btns|]. exists given. by rewrite Hp. }
  match goal with
  | |- context [match ?t with inl _ => _ | inr _ => _ end] =>
      destruct t as [err|opts']; [done|]
  end.
  destruct (negb (as_bool (Options !! streamOptionName)).1).
  - destruct (Name_Resolve env) as [output [e|]].
    + destruct (_ || _); intros Hreq; (apply (Hdone _ Hreq); cbn; eauto).
    + intros Hreq. apply (Hdone _ Hreq). cbn. eauto.
  - destruct (Name_Search env) as [err|results].
    + intros Hreq. apply (Hdone _ Hreq). cbn. eauto.
    + destruct (emit_results _ results) as [r paths].
      intros Hreq. apply (Hdone _ Hreq). cbn. eauto.
Qed.

(** A name with the prefix, a negative timeout refused. *)
Lemma resolve_name_is_prefixed_witness :
  String.prefix "/btns/" "/btns/QmPeer" = true ∧
  ∃ given, given = "QmPeer"
           ∧ "/btns/QmPeer" = (if String.prefix "/btns/" given then given
                               else "/btns/" +:+ given).
Proof.
  exact (resolve_name_is_prefixed (λ _, inl "bad duration") ∅ ["QmPeer"] looping
           false "/btns/QmPeer" [Name_Cache true; Depth 1] eq_refl).
Defined.

(** What a run that reached its request leaves behind. *)
Lemma Ipns_Run_requested (time_ParseDuration : string → error + Duration)
    (Options : gmap string OptVal) (Arguments : list string) (env : IpnsEnv)
    (request : bool * string * list NameResolveOption) :
  requested (Ipns_Run time_ParseDuration Options Arguments env) = Some request →
  let recursive := (as_bool (Options !! recursiveOptionName)).1 in
  let done := Ipns_Run time_ParseDuration Options Arguments env in
  request.1.1 = (as_bool (Options !! streamOptionName)).1 ∧
  (request.1.1 = false →
   match Name_Resolve env with
   | (output, Some e) =>
       if recursive || negb (match e with ErrResolveRecursion => true
                                        | resolve_failed _ => false end)
       then ipns_result done = Some (Error e) ∧ resolved done = []
       else ipns_result done = EmitOnce env ∧
            resolved done = match EmitOnce env with Some _ => [] | None => [output] end
   | (output, None) =>
       ipns_result done = EmitOnce env ∧
       resolved done = match EmitOnce env with Some _ => [] | None => [output] end
   end) ∧
  (request.1.1 = true →
   match Name_Search env with
   | inl err => ipns_result done = Some err ∧ resolved done = []
   | inr results =>
       ipns_result done = (emit_results recursive results).1 ∧
       resolved done = (emit_results recursive results).2
   end).
Proof.
  cbv zeta. unfold Ipns_Run.
  destruct (ipns_GetApi env); [done|].
  destruct (match Arguments with [] => Key_Self env | n :: _ => inr n end);
    [done|].
  destruct (as_uint _) as [rc rcok]. destruct (as_string _) as [dhtt dhttok].
  match goal with
  | |- context [match ?t with inl _ => _ | inr _ => _ end] =>
      destruct t as [err|opts']; [done|]
  end.
  destruct (as_bool (Options !! streamOptionName)).1; cbn [negb].
  - destruct (Name_Search env) as [err|results].
    + intros [= <-]. by cbn.
    + destruct (emit_results _ results) as [r paths]. intros [= <-]. by cbn.
  - destruct (Name_Resolve env) as [output [e|]].
    + destruct (_ || _); intros [= <-]; by cbn.
    + intros [= <-]. by cbn.
Qed.

(** A run that made no request returned an error and emitted nothing. *)
Lemma Ipns_Run_no_request (time_ParseDuration : string → error + Duration)
    (Options : gmap string OptVal) (Arguments : list string) (env : IpnsEnv) :
  requested (Ipns_Run time_ParseDuration Options Arguments env) = None →
  is_Some (ipns_result (Ipns_Run time_ParseDuration Options Arguments env)) ∧
  resolved (Ipns_Run time_ParseDuration Options Arguments env) = [].
Proof.
  unfold Ipns_Run.
  destruct (ipns_GetApi env); [by eauto|].
  destruct (match Arguments with [] => Key_Self env | n :: _ => inr n end);
    [by eauto|].
  destruct (as_uint _) as [rc rcok]. destruct (as_string _) as [dhtt dhttok].
  match goal with
  | |- context [match ?t with inl _ => _ | inr _ => _ end] =>
      destruct t as [err|opts']; [by eauto|]
  end.
  destruct (negb _).
  - destruct (Name_Resolve env) as [output [e|]]; [destruct (_ || _)|]; done.
  - destruct (Name_Search env) as [err|results]; [done|].
    by destruct (emit_results _ results).
Qed.

(** X25. With a [dht-timeout] given, [Run] asks for a resolution only once
    the timeout has parsed to a duration that is not negative, which is then
    the last option of the request; if it asks for none, it returns an error
    and emits nothing. *)
Theorem timeout_checked_before_resolving
    (time_ParseDuration : string → error + Duration)
    (Options : gmap string OptVal) (Arguments : list string) (env : IpnsEnv)
    (dhtt : string) :
  Options !! dhtTimeoutOptionName = Some (OString dhtt) →
  match requested (Ipns_Run time_ParseDuration Options Arguments env) with
  | Some (_, _, opts) =>
      ∃ d, time_ParseDuration dhtt = inr d ∧ 0 ≤ d ∧ last opts = Some (DhtTimeout d)
  | None =>
      is_Some (ipns_result (Ipns_Run time_ParseDuration Options Arguments env)) ∧
      resolved (Ipns_Run time_ParseDuration Options Arguments env) = []
  end.
Proof.
  intros Hopt.
  destruct (requested _) as [[[stream name] opts]|] eqn:Hreq;
    [|by apply Ipns_Run_no_request].
  revert Hreq. unfold Ipns_Run. rewrite Hopt.
  destruct (ipns_GetApi env); [done|].
  destruct (match Arguments with [] => Key_Self env | n :: _ => inr n end);
    [done|].
  destruct (as_uint _) as [rc rcok]. cbn [as_string].
  destruct (time_ParseDuration dhtt) as [err|d]; [done|].
  case_bool_decide; [done|].
  assert (∀ o, requested o = Some (stream, name, opts) →
               (∃ st nm pre, requested o = Some (st, nm, pre ++ [DhtTimeout d])) →
               ∃ d0 : Duration, @inr error Duration d = inr d0 ∧ 0 ≤ d0
                                ∧ last opts = Some (DhtTimeout d0)) as Hdone.
  { intros o Hreq (st & nm & pre & Hpre). rewrite Hreq in Hpre.
    injection Hpre as _ _ ->. exists d. rewrite last_snoc. split_and!; [done|lia|done]. }
  destruct (negb _).
  - destruct (Name_Resolve env) as [output [e|]]; [destruct (_ || _)|];
      intros Hreq; (apply (Hdone _ Hreq); cbn; eauto).
  - destruct (Name_Search env) as [err|results];
      [|destruct (emit_results _ results)];
      intros Hreq; (apply (Hdone _ Hreq); cbn; eauto).
Qed.

(** A timeout of thirty seconds. *)
Lemma timeout_checked_before_resolving_witness :
  ∃ d, (λ _ : string, @inr error Duration (30 * Second)) "30s" = inr d ∧ 0 ≤ d
       ∧ last [Name_Cache true; Depth 1; DhtTimeout (30 * Second)]
         = Some (DhtTimeout d).
Proof.
  exact (timeout_checked_before_resolving (λ _, inr (30 * Second)) timed ["QmPeer"]
           looping "30s" eq_refl).
Defined.

Lemma emit_results_forgive
    (results : list (string * option resolve_error * option error)) :
  emit_results false ((λ r, (r.1.1, forgive r.1.2, r.2)) <$> results)
  = emit_results false results.
Proof.
  induction results as [|[[path v_Err] emit] rest IH]; [done|].
  cbn. rewrite IH. by destruct v_Err as [[|msg]|].
Qed.

(** X26. Unless [recursive] is set, a resolution that ends at the recursion
    limit is no error to [Run]: it returns and emits what it would have, had
    the limit never been reached, in one answer or in a stream. *)
Theorem recursion_limit_forgiven_unless_recursive
    (time_ParseDuration : string → error + Duration)
    (Options : gmap string OptVal) (Arguments : list string) (env : IpnsEnv) :
  (as_bool (Options !! recursiveOptionName)).1 = false →
  Ipns_Run time_ParseDuration Options Arguments env
  = Ipns_Run time_ParseDuration Options Arguments (forgiving env).
Proof.
  intros Hrec. unfold Ipns_Run. rewrite Hrec. cbn [forgiving ipns_GetApi Key_Self
    Name_Resolve EmitOnce Name_Search negb orb].
  destruct (ipns_GetApi env); [done|].
  destruct (match Arguments with [] => Key_Self env | n :: _ => inr n end);
    [done|].
  destruct (as_uint _) as [rc rcok]. destruct (as_string _) as [dhtt dhttok].
  match goal with
  | |- context [match ?t with inl _ => _ | inr _ => _ end] =>
      destruct t as [err|opts']; [done|]
  end.
  destruct (negb _).
  - by destruct (Name_Resolve env) as [output [[|msg]|]].
  - destruct (Name_Search env) as [err|results]; [done|].
    by rewrite emit_results_forgive.
Qed.

(** A name that resolves one step too far. *)
Lemma recursion_limit_forgiven_unless_recursive_witness :
  Ipns_Run (λ _, inl "bad duration") ∅ ["QmPeer"] looping
  = Ipns_Run (λ _, inl "bad duration") ∅ ["QmPeer"] (forgiving looping).
Proof.
  exact (recursion_limit_forgiven_unless_recursive (λ _, inl "bad duration") ∅
           ["QmPeer"] looping eq_refl).
Defined.

Lemma emit_results_prefix (recursive : bool)
    (results : list (string * option resolve_error * option error)) :
  (emit_results recursive results).2 `prefix_of` paths_of results ∧
  ((emit_results recursive results).1 = None
   ↔ (emit_results recursive results).2 = paths_of results).
Proof.
  induction results as [|[[path v_Err] emit] rest [IHp IHn]]; [done|].
  assert (∀ err : error,
            @nil string `prefix_of` paths_of ((path, v_Err, emit) :: rest) ∧
            (Some err = None ↔ [] = paths_of ((path, v_Err, emit) :: rest)))
    as Hstop.
  { intros err. split; [apply prefix_nil|]. by split. }
  assert (let '(r, ps) := emit_results recursive rest in
          (path :: ps) `prefix_of` paths_of ((path, v_Err, emit) :: rest) ∧
          (r = None ↔ path :: ps = paths_of ((path, v_Err, emit) :: rest)))
    as Hnext.
  { destruct (emit_results recursive rest) as [r ps]. cbn in *. split.
    - by apply prefix_cons.
    - rewrite IHn. split; [by intros ->|by intros [= ->]]. }
  cbn [emit_results].
  destruct v_Err as [e|]; [destruct (_ || _); [apply Hstop|]|];
    (destruct emit; [apply Hstop|]);
    by destruct (emit_results recursive rest).
Qed.

(** X27. In a stream, the paths [Run] emits are the paths of the first
    results found, in their order, and [Run] returns nil exactly when it has
    emitted the path of every result. *)
Theorem stream_emits_a_prefix (time_ParseDuration : string → error + Duration)
    (Options : gmap string OptVal) (Arguments : list string) (env : IpnsEnv)
    (name : string) (opts : list NameResolveOption)
    (results : list (string * option resolve_error * option error)) :
  requested (Ipns_Run time_ParseDuration Options Arguments env)
  = Some (true, name, opts) →
  Name_Search env = inr results →
  resolved (Ipns_Run time_ParseDuration Options Arguments env)
    `prefix_of` paths_of results ∧
  (ipns_result (Ipns_Run time_ParseDuration Options Arguments env) = None
   ↔ resolved (Ipns_Run time_ParseDuration Options Arguments env)
     = paths_of results).
Proof.
  intros Hreq Hsearch.
  destruct (Ipns_Run_requested _ _ _ _ _ Hreq) as (_ & _ & Hstream).
  specialize (Hstream eq_refl). rewrite Hsearch in Hstream.
  destruct Hstream as [-> ->]. apply emit_results_prefix.
Qed.

(** Three results, the last one failed. *)
Lemma stream_emits_a_prefix_witness :
  resolved (Ipns_Run (λ _, inl "bad duration") streaming ["QmPeer"] looping)
    `prefix_of` paths_of [("/btfs/QmA", None, None);
                          ("/btns/QmNext", Some ErrResolveRecursion, None);
                          ("/btfs/QmB", Some (resolve_failed "routing: not found"),
                           None)] ∧
  (ipns_result (Ipns_Run (λ _, inl "bad duration") streaming ["QmPeer"] looping)
   = None
   ↔ resolved (Ipns_Run (λ _, inl "bad duration") streaming ["QmPeer"] looping)
     = paths_of [("/btfs/QmA", None, None);
                 ("/btns/QmNext", Some ErrResolveRecursion, None);
                 ("/btfs/QmB", Some (resolve_failed "routing: not found"), None)]).
Proof.
  exact (stream_emits_a_prefix (λ _, inl "bad duration") streaming ["QmPeer"]
           looping "/btns/QmPeer" [Name_Cache true; Depth 1] _ eq_refl eq_refl).
Defined.

(** * Properties of the node's MFS root *)

(** X28. [pf] syncs the two prefixes and the root key in this order and stops
    at the first call that fails: the root is written only once both
    prefixes are synced, nothing else in the datastore changes, and [pf]
    returns nil exactly when all three syncs were done, the root then being
    what the datastore holds under the key. *)
Theorem pf_writes_root_after_syncs (env : PfEnv) (c_Bytes : bytes)
    (ds : Datastore) :
  ∃ syncs,
    ds_synced (pf env c_Bytes ds).2 = ds_synced ds ++ syncs ∧
    syncs `prefix_of` [BlockPrefix; FilestorePrefix; dsk] ∧
    (ds_data (pf env c_Bytes ds).2 = ds_data ds
     ∨ ds_data (pf env c_Bytes ds).2 = <[dsk := c_Bytes]> (ds_data ds)
       ∧ [BlockPrefix; FilestorePrefix] `prefix_of` syncs) ∧
    ((pf env c_Bytes ds).1 = None ↔ syncs = [BlockPrefix; FilestorePrefix; dsk]) ∧
    ((pf env c_Bytes ds).1 = None →
     ds_Get dsk (pf env c_Bytes ds).2 = (Some c_Bytes, None)).
Proof.
  destruct env as [[e1|] [e2|] [e3|] [e4|]];
    unfold pf, ds_Sync, ds_Put, leave, act, mbind, Proc_bind; cbn.
  all: try (exists []; rewrite app_nil_r;
            split_and!; [done|apply prefix_nil|by left|done|done]).
  all: try (exists [BlockPrefix]; split_and!;
            [done|by exists [FilestorePrefix; dsk]|by left|done|done]).
  - exists [BlockPrefix; FilestorePrefix]. rewrite <-app_assoc.
    split_and!; [done|by exists [dsk]|by left|done|done].
  - exists [BlockPrefix; FilestorePrefix]. rewrite <-app_assoc.
    split_and!; [done|by exists [dsk]|by left|done|done].
  - exists [BlockPrefix; FilestorePrefix]. rewrite <-app_assoc.
    split_and!; [done|by exists [dsk]|right; split; [done|by exists []]|done|done].
  - exists [BlockPrefix; FilestorePrefix; dsk]. rewrite <-!app_assoc.
    split_and!; [done|by exists []|right; split; [done|by exists [dsk]]|done|].
    intros _. unfold ds_Get. cbn. by rewrite lookup_insert_eq.
Qed.

Lemma pf_nil_holds_root (env : PfEnv) (c_Bytes : bytes) (ds : Datastore) :
  (pf env c_Bytes ds).1 = None →
  ds_Get dsk (pf env c_Bytes ds).2 = (Some c_Bytes, None).
Proof.
  destruct env as [[e1|] [e2|] [e3|] [e4|]];
    unfold pf, ds_Sync, ds_Put, leave, act, mbind, Proc_bind; cbn; try done.
  intros _. unfold ds_Get. cbn. by rewrite lookup_insert_eq.
Qed.

(** X29. A root that [pf] has saved is the root [Files] starts from the next
    time: once [pf] returned nil, the datastore's answer for the key makes
    [Files] cast the saved bytes, load that node, add nothing to the DAG and
    register its stop hook. *)
Theorem saved_root_is_loaded (penv : PfEnv) (fenv : FilesEnv) (c_Bytes : bytes)
    (c : string) (ds : Datastore) :
  (pf penv c_Bytes ds).1 = None →
  cid_Cast fenv c_Bytes = inr c →
  dag_Get fenv = inr true →
  let '(val, err) := ds_Get dsk (pf penv c_Bytes ds).2 in
  Files fenv val err
  = {| files_result := match NewRoot fenv with
                       | Some e => inl e
                       | None => inr (loaded c)
                       end;
       dag_added := []; hooks := 1 |}.
Proof.
  intros Hpf Hcast Hget. rewrite (pf_nil_holds_root _ _ _ Hpf).
  unfold Files. by rewrite Hcast, Hget.
Qed.

(** The root saved in an empty datastore. *)
Lemma saved_root_is_loaded_witness :
  let '(val, err) :=
    ds_Get dsk (pf sound [Byte.x01; Byte.x70]
                  {| ds_data := ∅; ds_synced := [] |}).2 in
  Files holding val err
  = {| files_result := match NewRoot holding with
                       | Some e => inl e
                       | None => inr (loaded "QmRoot")
                       end;
       dag_added := []; hooks := 1 |}.
Proof.
  exact (saved_root_is_loaded sound holding [Byte.x01; Byte.x70] "QmRoot"
           {| ds_data := ∅; ds_synced := [] |} eq_refl eq_refl eq_refl).
Defined.

(** X30. Where a root returned by [Files] comes from: the stop hook is
    registered and [mfs.NewRoot] succeeded; an empty directory was added to
    the DAG because the datastore had no value or answered not-found, whatever
    other error came with a nil value; a loaded node is the one the stored
    bytes cast to, found in the DAG as a protobuf node, with nothing added. *)
Theorem returned_root_origin (env : FilesEnv) (val : option bytes)
    (err : option ds_error) (nd : root_node) :
  files_result (Files env val err) = inr nd →
  hooks (Files env val err) = 1%nat ∧ NewRoot env = None ∧
  match nd with
  | EmptyDirNode =>
      (err = Some ErrNotFound ∨ val = None) ∧ dag_Add env = None ∧
      dag_added (Files env val err) = [EmptyDirNode]
  | loaded c =>
      err = None ∧ (∃ v, val = Some v ∧ cid_Cast env v = inr c) ∧
      dag_Get env = inr true ∧ dag_added (Files env val err) = []
  end.
Proof.
  unfold Files.
  destruct err as [[|msg]|], val as [v|];
    repeat match goal with
           | |- context [match ?t with _ => _ end] =>
               lazymatch t with
               | dag_Add env => destruct (dag_Add env) eqn:?
               | cid_Cast env v => destruct (cid_Cast env v) eqn:?
               | dag_Get env => destruct (dag_Get env) as [?|[|]] eqn:?
               | NewRoot env => destruct (NewRoot env) eqn:?
               end
           end; cbn; try done.
  all: intros [= <-]; split_and!; eauto.
Qed.

(** A datastore that fails to answer, with no value. *)
Lemma returned_root_origin_witness :
  hooks (Files holding None (Some (ds_failed "input/output error"))) = 1%nat ∧
  NewRoot holding = None ∧
  (Some (ds_failed "input/output error") = Some ErrNotFound ∨ @None bytes = None) ∧
  dag_Add holding = None ∧
  dag_added (Files holding None (Some (ds_failed "input/output error")))
  = [EmptyDirNode].
Proof.
  exact (returned_root_origin holding None (Some (ds_failed "input/output error"))
           EmptyDirNode eq_refl).
Defined.
